(** * MayaIntersectionMarker: the octree spatial-division kernel

    A shallow embedding of [src/kernel/OctreeKernel.cpp] (octree build,
    split, dual-tree traversal, kernel-vs-kernel query) and of the result
    assembly loop of [src/intersectionMarkerDrawOverride.cpp], together
    with the properties the specification states about them.

    The C++ code mutates nodes in place through pointers; every node is
    exclusively owned by its parent, so the embedding passes the node as a
    value and returns the updated node. *)

From stdpp Require Import base option list gmap strings pretty.
From Stdlib Require Import ZArith Lia.

(** ** Scalars

    Coordinates are C++ [double]s.  The embedding is generic in the
    arithmetic: every definition below only uses the operations of this
    interface, and no law is assumed about it. *)

Class Scalar (D : Type) := {
  s_lit  : Z -> D;
  s_add  : D -> D -> D;
  s_sub  : D -> D -> D;
  s_mul  : D -> D -> D;
  s_div  : D -> D -> D;
  s_sqrt : D -> D;
  s_ltb  : D -> D -> bool;
  s_leb  : D -> D -> bool
}.

Declare Scope scalar_scope.
Delimit Scope scalar_scope with S.
Infix "+" := s_add : scalar_scope.
Infix "-" := s_sub : scalar_scope.
Infix "*" := s_mul : scalar_scope.
Infix "/" := s_div : scalar_scope.
Infix "<?" := s_ltb : scalar_scope.
Infix "<=?" := s_leb : scalar_scope.

(** ** Geometry primitives (Maya API types, as far as the kernel uses them) *)

Section Kernel.
Context {D : Type} `{Scalar D}.

Record MPoint := mkPoint { px : D; py : D; pz : D }.
Record MVector := mkVector { vx : D; vy : D; vz : D }.

(** [MPoint + MPoint], [MPoint / double], [MPoint - MPoint] and
    [MVector::length]. *)
Definition point_add (p q : MPoint) : MPoint :=
  mkPoint (px p + px q)%S (py p + py q)%S (pz p + pz q)%S.
Definition point_div (p : MPoint) (k : D) : MPoint :=
  mkPoint (px p / k)%S (py p / k)%S (pz p / k)%S.
Definition point_sub (p q : MPoint) : MVector :=
  mkVector (px p - px q)%S (py p - py q)%S (pz p - pz q)%S.
Definition vlength (v : MVector) : D :=
  s_sqrt (vx v * vx v + vy v * vy v + vz v * vz v)%S.

(** [MBoundingBox(corner1, corner2)] with its [min()] and [max()]. *)
Record MBoundingBox := mkBox { bmin : MPoint; bmax : MPoint }.

(** Modelled from the spec: [MBoundingBox::center] is Maya API; section 3
    and the glossary make it the midpoint around which the octants are
    cut. *)
Definition center (b : MBoundingBox) : MPoint :=
  point_div (point_add (bmin b) (bmax b)) (s_lit 2).

(** The intervals of two boxes on one axis overlap or touch. *)
Definition overlapOn (axis : MPoint -> D) (a b : MBoundingBox) : bool :=
  (axis (bmin a) <=? axis (bmax b))%S && (axis (bmin b) <=? axis (bmax a))%S.

(** Modelled from the spec: [MBoundingBox::intersects] is Maya API;
    section 4.1: true iff the two intervals overlap on every axis,
    touching counts. *)
Definition intersects (a b : MBoundingBox) : bool :=
  overlapOn px a b && overlapOn py a b && overlapOn pz a b.

(** Modelled from the spec: [MBoundingBox::contains] is Maya API;
    section 4.1: the point lies inside or on the box. *)
Definition contains (b : MBoundingBox) (p : MPoint) : bool :=
  (px (bmin b) <=? px p)%S && (px p <=? px (bmax b))%S &&
  (py (bmin b) <=? py p)%S && (py p <=? py (bmax b))%S &&
  (pz (bmin b) <=? pz p)%S && (pz p <=? pz (bmax b))%S.

(** Modelled from the spec: the [TriangleData] declaration is not among
    the sources; section 3 lists its fields.  The source reads
    [vertices[0..2]], here [v0], [v1], [v2]. *)
Record TriangleData := mkTriangle {
  face_id : Z;
  triangle_index : Z;
  v0 : MPoint;
  v1 : MPoint;
  v2 : MPoint;
  normal : MVector
}.

(** Modelled from the spec: [boxContainsAnyVertices] and
    [boxContainsAllVertices] are declared in a header that is not among
    the sources; section 4.1 defines them. *)
Definition boxContainsAnyVertices (b : MBoundingBox) (t : TriangleData) : bool :=
  contains b (v0 t) || contains b (v1 t) || contains b (v2 t).
Definition boxContainsAllVertices (b : MBoundingBox) (t : TriangleData) : bool :=
  contains b (v0 t) && contains b (v1 t) && contains b (v2 t).

(** ** Octree nodes *)

(** Modelled from the spec: the [OctreeNode] declaration is not among the
    sources; section 3: a bounding box, 8 child slots (each a node or
    empty), and a triangle sequence.  [children] holds the 8 slots in
    index order; the loops [for (i = 0; i < 8; ++i)] of the source run
    over this list. *)
#[warnings="-register-all"]
Inductive OctreeNode := mkNode {
  boundingBox : MBoundingBox;
  children : list (option OctreeNode);
  triangles : list TriangleData
}.

(** Modelled from the spec: [OctreeNode::isLeaf] is declared with the
    node; section 3: a node is a leaf iff all 8 child slots are empty. *)
Definition isLeaf (n : OctreeNode) : bool :=
  forallb (fun c => match c with None => true | Some _ => false end) (children n).

(** [new OctreeNode()]: no children, no triangles. *)
Definition newNode (b : MBoundingBox) : OctreeNode :=
  mkNode b (replicate 8 None) [].

(** [node->triangles.push_back(triangle)] *)
Definition push_back (n : OctreeNode) (t : TriangleData) : OctreeNode :=
  mkNode (boundingBox n) (children n) (triangles n ++ [t]).

(** [int MAX_TRIANGLES_PER_NODE = 10; int MAX_DEPTH = 32;] *)
Definition MAX_TRIANGLES_PER_NODE : Z := 10.
Definition MAX_DEPTH : Z := 32.

(** ** splitNode *)

(** The eight boxes [boxes[0..7]] of [splitNode], in the order of the
    source. *)
Definition octants (bb : MBoundingBox) : list MBoundingBox :=
  let center := center bb in
  let min := bmin bb in
  let max := bmax bb in
  [ mkBox min center;
    mkBox (mkPoint (px center) (py min) (pz min)) (mkPoint (px max) (py center) (pz center));
    mkBox (mkPoint (px center) (py min) (pz center)) (mkPoint (px max) (py center) (pz max));
    mkBox (mkPoint (px min) (py min) (pz center)) (mkPoint (px center) (py center) (pz max));
    mkBox (mkPoint (px min) (py center) (pz min)) (mkPoint (px center) (py max) (pz center));
    mkBox (mkPoint (px center) (py center) (pz min)) (mkPoint (px max) (py max) (pz center));
    mkBox center max;
    mkBox (mkPoint (px min) (py center) (pz center)) (mkPoint (px center) (py max) (pz max)) ].

#[global] Instance MPoint_inhabited : Inhabited MPoint :=
  populate (mkPoint (s_lit 0) (s_lit 0) (s_lit 0)).
#[global] Instance MBoundingBox_inhabited : Inhabited MBoundingBox :=
  populate (mkBox inhabitant inhabitant).

(** The first loop over the boxes: the index of the first box, from index
    [i] on, that contains all three vertices ([inserted = true; break]). *)
Fixpoint firstContaining (boxes : list MBoundingBox) (triangle : TriangleData)
    (i : nat) : option nat :=
  match boxes with
  | [] => None
  | b :: rest =>
      if boxContainsAllVertices b triangle then Some i
      else firstContaining rest triangle (S i)
  end.

(** [baryCenter = (vertices[0] + vertices[1] + vertices[2]) / 3.0] *)
Definition baryCenter (triangle : TriangleData) : MPoint :=
  point_div (point_add (point_add (v0 triangle) (v1 triangle)) (v2 triangle)) (s_lit 3).

(** [(boxes[i].center() - baryCenter).length()] *)
Definition distanceTo (boxes : list MBoundingBox) (triangle : TriangleData) (i : nat) : D :=
  vlength (point_sub (center (boxes !!! i)) (baryCenter triangle)).

(** One iteration of the loop [for (i = 1; i < 8; ++i)] on the pair
    [(nearestChild, minDistance)]. *)
Definition nearestStep (boxes : list MBoundingBox) (triangle : TriangleData)
    (st : nat * D) (i : nat) : nat * D :=
  let distance := distanceTo boxes triangle i in
  if (distance <? st.2)%S then (i, distance) else st.

Definition nearestChild (boxes : list MBoundingBox) (triangle : TriangleData) : nat :=
  (fold_left (nearestStep boxes triangle) (seq 1 7) (0, distanceTo boxes triangle 0)).1.

(** The child index a triangle of the split node is moved to. *)
Definition targetChild (boxes : list MBoundingBox) (triangle : TriangleData) : nat :=
  match firstContaining boxes triangle 0 with
  | Some i => i
  | None => nearestChild boxes triangle
  end.

(** The body of [for (const TriangleData& triangle : node->triangles)]:
    [node->children[target]->triangles.push_back(triangle)]. *)
Definition moveToChild (boxes : list MBoundingBox)
    (cs : list (option OctreeNode)) (triangle : TriangleData) : list (option OctreeNode) :=
  alter (fmap (fun child => push_back child triangle)) (targetChild boxes triangle) cs.

Definition splitNode (node : OctreeNode) : OctreeNode :=
  let boxes := octants (boundingBox node) in
  let fresh := map (fun b => Some (newNode b)) boxes in
  mkNode (boundingBox node)
         (fold_left (moveToChild boxes) (triangles node) fresh)
         [].

(** ** insertTriangle

    The recursion of [insertTriangle] is not structural (after a split it
    calls itself on the same node), so the embedding counts stack frames:
    [insertTriangle_frames n] runs the body with at most [n] nested
    activations and stops with [OutOfFrames] when it would need more.
    Every activation records its [depth] argument on entry; the record is
    ghost state, the source has no counterpart of it. *)

Inductive Run (A : Type) :=
  | OutOfFrames
  | Done (result : A) (activations : list Z).
Arguments OutOfFrames {A}.
Arguments Done {A} result activations.

#[global] Instance run_ret : MRet Run := fun A (a : A) => Done a [].

#[global] Instance run_bind : MBind Run := fun A B (k : A -> Run B) (m : Run A) =>
  match m with
  | OutOfFrames => OutOfFrames
  | Done a log =>
      match k a with
      | OutOfFrames => OutOfFrames
      | Done b log' => Done b (log ++ log')
      end
  end.

(** Entry of an activation called with [depth]. *)
Definition enter (depth : Z) : Run unit := Done tt [depth].

Definition result_of {A} (m : Run A) : option A :=
  match m with
  | OutOfFrames => None
  | Done a _ => Some a
  end.

Definition activations_of {A} (m : Run A) : list Z :=
  match m with
  | OutOfFrames => []
  | Done _ log => log
  end.

(** The loop over the children of an interior node; [visit] is the
    recursive call [insertTriangle(node->children[i], triangle, depth + 1)],
    the boolean is the flag [inserted]. *)
Fixpoint insertIntoChildren (visit : OctreeNode -> Run OctreeNode)
    (triangle : TriangleData) (cs : list (option OctreeNode)) (inserted : bool)
    : Run (list (option OctreeNode) * bool) :=
  match cs with
  | [] => mret ([], inserted)
  | None :: rest =>
      '(rest', inserted') ← insertIntoChildren visit triangle rest inserted;
      mret (None :: rest', inserted')
  | Some child :: rest =>
      if boxContainsAnyVertices (boundingBox child) triangle then
        child' ← visit child;
        '(rest', inserted') ← insertIntoChildren visit triangle rest true;
        mret (Some child' :: rest', inserted')
      else
        '(rest', inserted') ← insertIntoChildren visit triangle rest inserted;
        mret (Some child :: rest', inserted')
  end.

Fixpoint insertTriangle_frames (frames : nat) (node : OctreeNode)
    (triangle : TriangleData) (depth : Z) : Run OctreeNode :=
  match frames with
  | O => OutOfFrames
  | S frames' =>
      enter depth;;
      if (depth >? MAX_DEPTH)%Z then
        mret (push_back node triangle)
      else if isLeaf node then
        if (Z.of_nat (length (triangles node)) <? MAX_TRIANGLES_PER_NODE)%Z then
          mret (push_back node triangle)
        else
          insertTriangle_frames frames' (splitNode node) triangle (depth + 1)
      else
        '(children', inserted) ← insertIntoChildren
               (fun child => insertTriangle_frames frames' child triangle (depth + 1))
               triangle (children node) false;
        mret (mkNode (boundingBox node) children'
                     (if inserted : bool then triangles node
                      else triangles node ++ [triangle]))
  end.

(** Frames that suffice for a call at [depth]. *)
Definition framesFor (depth : Z) : nat := S (Z.to_nat (MAX_DEPTH + 1 - depth)).

Definition insertTriangle (node : OctreeNode) (triangle : TriangleData) (depth : Z)
    : OctreeNode :=
  default node (result_of (insertTriangle_frames (framesFor depth) node triangle depth)).

(** A child slot accepts the triangle: it is not null and its box holds a
    vertex. *)
Definition accepts (triangle : TriangleData) (c : option OctreeNode) : bool :=
  match c with
  | Some child => boxContainsAnyVertices (boundingBox child) triangle
  | None => false
  end.

(** The child slots after the loop over the children, when the recursive
    call turns a child into [g child]. *)
Definition childrenAfter (g : OctreeNode -> OctreeNode) (triangle : TriangleData)
    (cs : list (option OctreeNode)) : list (option OctreeNode) :=
  map (fun c => match c with
                | Some child =>
                    Some (if boxContainsAnyVertices (boundingBox child) triangle
                          then g child else child)
                | None => None
                end) cs.

(** The shape of the activation record of a call at [depth]: the call
    itself, then the records of the calls it makes directly, each of them
    entered with [depth + 1] and none with more than [MAX_DEPTH + 1]. *)
Definition recordOfCallAt (depth : Z) (log : list Z) : Prop :=
  exists calls : list (list Z),
    log = depth :: concat calls /\
    ((depth > MAX_DEPTH)%Z -> calls = []) /\
    Forall (fun call => head call = Some (depth + 1)%Z) calls /\
    Forall (fun d => (depth < d <= MAX_DEPTH + 1)%Z) (concat calls).

(** ** build *)

(** [MMatrix], represented by its action [point * matrix]. *)
Definition MMatrix : Type := MPoint -> MPoint.

(** What [MItMeshPolygon] yields for one polygon: [index()], [getNormal]
    and the points of [getTriangle(i, ...)] for [i < numTriangles]. *)
Record Polygon := mkPolygon {
  index : Z;
  polygonNormal : MVector;
  polygonTriangles : list (MPoint * MPoint * MPoint)
}.

(** The triangles [build] inserts, in order; [offsetMatrix] is applied to
    the points ([points[k] * offsetMatrix]). *)
Definition trianglesOfMesh (mesh : list Polygon) (offsetMatrix : MMatrix)
    : list TriangleData :=
  flat_map (fun poly =>
              imap (fun (i : nat) (pts : MPoint * MPoint * MPoint) =>
                      mkTriangle (index poly) (Z.of_nat i)
                                 (offsetMatrix pts.1.1) (offsetMatrix pts.1.2)
                                 (offsetMatrix pts.2) (polygonNormal poly))
                   (polygonTriangles poly))
           mesh.

(** The root [build] leaves in the kernel. *)
Definition build (mesh : list Polygon) (bbox : MBoundingBox)
    (offsetMatrix : MMatrix) : OctreeNode :=
  fold_left (fun root triangle => insertTriangle root triangle 0)
            (trianglesOfMesh mesh offsetMatrix)
            (newNode bbox).

(** ** Dual-tree traversal *)

(** [intersectOctreeNodesRecursive(nodeA, nodeB, intersectedNodes)]; the
    vector passed by reference is threaded through.  Recursion descends in
    [nodeA], in [nodeB] or in both, hence the inner [fix] on [nodeB]. *)
Definition NodePairs : Type := list (OctreeNode * OctreeNode).

Fixpoint intersectOctreeNodesRecursive (nodeA : OctreeNode)
    : OctreeNode -> NodePairs -> NodePairs :=
  fix withB (nodeB : OctreeNode) (intersectedNodes : NodePairs)
      {struct nodeB} : NodePairs :=
    if negb (intersects (boundingBox nodeA) (boundingBox nodeB)) then intersectedNodes
    else if isLeaf nodeA && isLeaf nodeB then intersectedNodes ++ [(nodeA, nodeB)]
    else if isLeaf nodeA then
      fold_left (fun (acc : NodePairs) (cB : option OctreeNode) =>
                   match cB with
                   | Some childB => withB childB acc
                   | None => acc
                   end) (children nodeB) intersectedNodes
    else if isLeaf nodeB then
      fold_left (fun (acc : NodePairs) (cA : option OctreeNode) =>
                   match cA with
                   | Some childA => intersectOctreeNodesRecursive childA nodeB acc
                   | None => acc
                   end) (children nodeA) intersectedNodes
    else
      fold_left (fun (acc : NodePairs) (cA : option OctreeNode) =>
        fold_left (fun (acc : NodePairs) (cB : option OctreeNode) =>
                     match cA, cB with
                     | Some childA, Some childB =>
                         intersectOctreeNodesRecursive childA childB acc
                     | _, _ => acc
                     end) (children nodeB) acc) (children nodeA) intersectedNodes.

(** The pairs the traversal emits when started on an empty vector, as
    [intersectKernelKernel] starts it. *)
Definition emitted (nodeA nodeB : OctreeNode) : NodePairs :=
  intersectOctreeNodesRecursive nodeA nodeB [].

(** What one call emits for the children of [nodeB], of [nodeA], or of
    both. *)
Definition emitB (nodeA : OctreeNode) (cB : option OctreeNode) : NodePairs :=
  match cB with Some childB => emitted nodeA childB | None => [] end.
Definition emitA (nodeB : OctreeNode) (cA : option OctreeNode) : NodePairs :=
  match cA with Some childA => emitted childA nodeB | None => [] end.
Definition emitAB (cA cB : option OctreeNode) : NodePairs :=
  match cA, cB with Some childA, Some childB => emitted childA childB | _, _ => [] end.

(** ** Kernel-vs-kernel query *)

(** The triangle-triangle predicate [intersectTriangleTriangle] is declared
    in a header that is not among the sources; the query takes it as a
    parameter. *)
Class TrianglePredicate := {
  intersectTriangleTriangle : TriangleData -> TriangleData -> bool
}.
Context {TP : TrianglePredicate}.

(** Modelled from the spec: the class declarations are not among the
    sources; section 3: a kernel is a single octree root.  Kernels of
    another variant of the base class [SpatialDivisionKernel] are only
    known by name. *)
Record OctreeKernel := mkKernel { root : OctreeNode }.

Inductive SpatialDivisionKernel :=
  | Octree (k : OctreeKernel)
  | OtherKernel (name : string).

(** [dynamic_cast<OctreeKernel*>(&otherKernel)] *)
Definition dynamic_cast (k : SpatialDivisionKernel) : option OctreeKernel :=
  match k with
  | Octree o => Some o
  | OtherKernel _ => None
  end.

(** Messages sent to the host through [MGlobal]. *)
Inductive Message :=
  | displayError (text : string)
  | displayInfo (text : string).

(** [K2KIntersection]: the pair of triangle vectors. *)
Definition K2KIntersection : Type := list TriangleData * list TriangleData.

(** The two innermost loops over [nodeA->triangles] and [nodeB->triangles],
    on the two result vectors. *)
Definition testTriangles (nodeA nodeB : OctreeNode) (acc : K2KIntersection)
    : K2KIntersection :=
  fold_left (fun (acc : K2KIntersection) (triA : TriangleData) =>
    fold_left (fun (acc : K2KIntersection) (triB : TriangleData) =>
                 if intersectTriangleTriangle triA triB
                 then (acc.1 ++ [triA], acc.2 ++ [triB])
                 else acc)
              (triangles nodeB) acc)
    (triangles nodeA) acc.

(** The body of [for (const auto& pair : intersectedNodes)]. *)
Definition testPair (acc : K2KIntersection) (pair : OctreeNode * OctreeNode)
    : K2KIntersection :=
  let nodeA := pair.1 in
  let nodeB := pair.2 in
  if isLeaf nodeA && isLeaf nodeB then testTriangles nodeA nodeB acc else acc.

(** The hits of the two innermost loops on a pair of nodes, in the order
    the loops find them. *)
Definition hitsOf (nodeA nodeB : OctreeNode) : list (TriangleData * TriangleData) :=
  flat_map (fun triA =>
              flat_map (fun triB =>
                          if intersectTriangleTriangle triA triB then [(triA, triB)] else [])
                       (triangles nodeB))
           (triangles nodeA).

Definition pairHits (pair : OctreeNode * OctreeNode) : list (TriangleData * TriangleData) :=
  if isLeaf pair.1 && isLeaf pair.2 then hitsOf pair.1 pair.2 else [].

(** [OctreeKernel::intersectKernelKernel]: the result and the messages
    displayed.  The method is [const] and only reads [otherKernel]; both
    kernels are therefore arguments only. *)
Definition intersectKernelKernel (this : OctreeKernel) (otherKernel : SpatialDivisionKernel)
    : K2KIntersection * list Message :=
  match dynamic_cast otherKernel with
  | None =>
      (([], []), [displayError "Cannot intersect octree with other kernel type!"])
  | Some other =>
      let intersectedNodes := intersectOctreeNodesRecursive (root this) (root other) [] in
      (fold_left testPair intersectedNodes ([], []), [])
  end.

(** ** Intersection driver *)

(** Modelled from the spec: the driver that turns the two triangle vectors
    into the face-id sets the host reads ([std::unordered_set<int>] in
    [intersectionMarkerDrawOverride.cpp]) is not among the sources;
    section 4.4, step 4: each triangle's face id is inserted into the set
    of its mesh. *)
Definition collectFaceIds (ts : list TriangleData) : gset Z :=
  fold_left (fun (ids : gset Z) (t : TriangleData) => {[ face_id t ]} ∪ ids) ts ∅.

(** Modelled from the spec: section 4.4, steps 3 and 4. *)
Definition intersect (kernelA : OctreeKernel) (kernelB : SpatialDivisionKernel)
    : gset Z * gset Z :=
  let r := (intersectKernelKernel kernelA kernelB).1 in
  (collectFaceIds r.1, collectFaceIds r.2).

(** Triangles at interior nodes removed, leaves untouched. *)
Fixpoint clearInterior (n : OctreeNode) : OctreeNode :=
  mkNode (boundingBox n)
         (map (fun c => match c with
                        | Some child => Some (clearInterior child)
                        | None => None
                        end) (children n))
         (if isLeaf n then triangles n else []).

(** The nodes of a tree, the root first. *)
Fixpoint nodesOf (n : OctreeNode) : list OctreeNode :=
  n :: flat_map (fun c => match c with
                          | Some child => nodesOf child
                          | None => []
                          end) (children n).

(** The predicate answers alike in both argument orders on the triangles
    held by the leaves of two trees. *)
Definition symmetricOn (a b : OctreeNode) : Prop :=
  forall x y u v,
    x ∈ nodesOf a -> isLeaf x = true -> y ∈ nodesOf b -> isLeaf y = true ->
    u ∈ triangles x -> v ∈ triangles y ->
    intersectTriangleTriangle u v = intersectTriangleTriangle v u.

(** Every node of the tree has its 8 child slots. *)
Fixpoint eightSlots (n : OctreeNode) : Prop :=
  length (children n) = 8 /\
  fold_right (fun c rest => match c with
                            | Some child => eightSlots child /\ rest
                            | None => rest
                            end) True (children n).

(** ** Result assembly ([IntersectionMarkerDrawOverride::addIntersectedVertices]) *)

(** What the function reads from [MFnMesh]: [numPolygons()],
    [getTriangles], [getPoints] and [getPolygonNormal]. *)
Record MFnMesh := mkMesh {
  numPolygons : Z;
  triangleCounts : list Z;
  triangleVertices : list Z;
  vertexPositions : list MPoint;
  getPolygonNormal : Z -> MVector
}.

Record FaceData := mkFaceData { vertices : list MPoint; edges : list MPoint }.
Record IntersectionMarkerData := mkData { faces : list FaceData }.

(** [MPoint + MVector * double] *)
Definition offsetAlong (p : MPoint) (n : MVector) (k : D) : MPoint :=
  mkPoint (px p + vx n * k)%S (py p + vy n * k)%S (pz p + vz n * k)%S.

(** A C++ [int] is 32 bits wide: [wrapInt z] is the value an [int]
    holds after an operation whose exact result is [z] (two's
    complement wrap-around). *)
Definition INT_MAX : Z := 2147483647.
Definition wrapInt (z : Z) : Z := ((z + 2 ^ 31) mod 2 ^ 32 - 2 ^ 31)%Z.

(** The loop that fills [polygonTriangleOffsets]: entry 0 is 0, entry
    [polygonIndex] is the previous entry plus three times the previous
    polygon's triangle count, both computed in [int]. *)
Definition polygonTriangleOffsets (mesh : MFnMesh) : list Z :=
  fold_left (fun (offsets : list Z) (polygonIndex : nat) =>
               let previousTriangles := triangleCounts mesh !!! (polygonIndex - 1)%nat in
               <[ polygonIndex :=
                    wrapInt (offsets !!! (polygonIndex - 1)%nat
                             + wrapInt (previousTriangles * 3)) ]> offsets)
            (seq 1 (Z.to_nat (numPolygons mesh) - 1))
            (replicate (Z.to_nat (numPolygons mesh)) 0%Z).

(** The face data built for one in-range face id; the positions
    [triangleVerticesOffset + triangleIndex * 3 + c] are [int]s. *)
Definition faceDataOf (mesh : MFnMesh) (offsetMatrix : MMatrix) (faceId : Z) : FaceData :=
  let numTrianglesInPolygon := triangleCounts mesh !!! Z.to_nat faceId in
  let triangleVerticesOffset := polygonTriangleOffsets mesh !!! Z.to_nat faceId in
  let normal := getPolygonNormal mesh faceId in
  let milli := (s_lit 1 / s_lit 1000)%S in
  let vertexAt (k : Z) : MPoint :=
    offsetMatrix (vertexPositions mesh !!! Z.to_nat (triangleVertices mesh !!! Z.to_nat k)) in
  let position (triangleIndex c : Z) : Z :=
    wrapInt (wrapInt (triangleVerticesOffset + wrapInt (triangleIndex * 3)) + c) in
  mkFaceData
    (flat_map (fun triangleIndex : Z =>
                 let p0 := vertexAt (position triangleIndex 0%Z) in
                 let p1 := vertexAt (position triangleIndex 1%Z) in
                 let p2 := vertexAt (position triangleIndex 2%Z) in
                 [offsetAlong p0 normal milli; offsetAlong p1 normal milli;
                  offsetAlong p2 normal milli])
              (seqZ 0 numTrianglesInPolygon))
    [].

(** The body of [for (const auto &faceId : intersectedFaceIds)] on the
    marker data and the messages displayed so far. *)
Definition addFace (mesh : MFnMesh) (offsetMatrix : MMatrix)
    (st : IntersectionMarkerData * list Message) (faceId : Z)
    : IntersectionMarkerData * list Message :=
  if (faceId <? 0)%Z || (faceId >=? numPolygons mesh)%Z then
    (st.1, st.2 ++ [displayInfo ("Face ID out of bounds: " +:+ pretty faceId)])
  else
    (mkData (faces st.1 ++ [faceDataOf mesh offsetMatrix faceId]), st.2).

(** The set is visited in its iteration order, [elements]. *)
Definition addIntersectedVertices (mesh : MFnMesh) (data : IntersectionMarkerData)
    (intersectedFaceIds : gset Z) (offsetMatrix : MMatrix)
    : IntersectionMarkerData * list Message :=
  fold_left (addFace mesh offsetMatrix) (elements intersectedFaceIds) (data, []).

Definition faceIdInRange (mesh : MFnMesh) (faceId : Z) : bool :=
  (0 <=? faceId)%Z && (faceId <? numPolygons mesh)%Z.

(** ** Triangle-vs-kernel query *)

(** The box-triangle overlap test [intersectBoxTriangle] is declared in a
    header that is not among the sources; the query takes it as a
    parameter. *)
Class BoxTrianglePredicate := {
  intersectBoxTriangle : MBoundingBox -> TriangleData -> bool
}.
Context {BP : BoxTrianglePredicate}.

(** The child pointers that are not null, in index order: what the loop
    [for (i = 0; i < 8; ++i) if (children[i] != nullptr) push] appends. *)
Definition nonNullChildren (n : OctreeNode) : list OctreeNode :=
  omap (fun c : option OctreeNode => c) (children n).

(** The loop [while (!nodesToCheck.empty())] of
    [OctreeKernel::intersectKernelTriangle] on the queue and the result
    vector; [steps] bounds the number of iterations and [None] means the
    bound was too small. *)
Fixpoint intersectKernelTriangle_loop (steps : nat) (nodesToCheck : list OctreeNode)
    (incomingTri : TriangleData) (intersectedTriangles : list TriangleData)
    : option (list TriangleData) :=
  match nodesToCheck with
  | [] => Some intersectedTriangles
  | currentNode :: rest =>
      match steps with
      | O => None
      | S steps' =>
          if intersectBoxTriangle (boundingBox currentNode) incomingTri then
            if isLeaf currentNode then
              intersectKernelTriangle_loop steps' rest incomingTri
                (intersectedTriangles ++
                 List.filter (fun ourTri => intersectTriangleTriangle ourTri incomingTri)
                             (triangles currentNode))
            else
              intersectKernelTriangle_loop steps' (rest ++ nonNullChildren currentNode)
                incomingTri intersectedTriangles
          else
            intersectKernelTriangle_loop steps' rest incomingTri intersectedTriangles
      end
  end.

(** The number of nodes of the trees in a queue. *)
Definition nodeCount (queue : list OctreeNode) : nat :=
  length (flat_map nodesOf queue).

(** [OctreeKernel::intersectKernelTriangle]; the root pointer may be null
    ([if (root != nullptr) nodesToCheck.push(root)]). *)
Definition intersectKernelTriangle (root : option OctreeNode) (incomingTri : TriangleData)
    : list TriangleData :=
  let nodesToCheck := match root with Some r => [r] | None => [] end in
  default [] (intersectKernelTriangle_loop (nodeCount nodesToCheck) nodesToCheck
                                           incomingTri []).

(** The same triangles gathered depth first. *)
Fixpoint triangleHits (incomingTri : TriangleData) (n : OctreeNode) : list TriangleData :=
  if intersectBoxTriangle (boundingBox n) incomingTri then
    if isLeaf n then
      List.filter (fun ourTri => intersectTriangleTriangle ourTri incomingTri) (triangles n)
    else
      flat_map (fun c => match c with
                         | Some child => triangleHits incomingTri child
                         | None => []
                         end) (children n)
  else [].

(** ** clear *)

(** [OctreeKernel::clear(node)]: the nodes handed to [delete], in order. *)
Fixpoint clearNode (n : OctreeNode) : list OctreeNode :=
  flat_map (fun c => match c with
                     | Some child => clearNode child
                     | None => []
                     end) (children n) ++ [n].

Definition clear (node : option OctreeNode) : list OctreeNode :=
  match node with
  | Some n => clearNode n
  | None => []
  end.

(** ** What a tree stores *)

(** All triangles of all nodes of a tree. *)
Fixpoint storedTriangles (n : OctreeNode) : list TriangleData :=
  triangles n ++ flat_map (fun c => match c with
                                    | Some child => storedTriangles child
                                    | None => []
                                    end) (children n).

(** A node with no child at all, or with 8 children on the octants of its
    box. *)
Definition fanOut (n : OctreeNode) : Prop :=
  children n = replicate 8 None \/
  map (option_map boundingBox) (children n) = map Some (octants (boundingBox n)).

Fixpoint wellShaped (n : OctreeNode) : Prop :=
  fanOut n /\
  fold_right (fun c rest => match c with
                            | Some child => wellShaped child /\ rest
                            | None => rest
                            end) True (children n).

(** The number of leaves of a tree. *)
Fixpoint leafCount (n : OctreeNode) : nat :=
  if isLeaf n then 1
  else fold_right (fun c rest => match c with
                                 | Some child => leafCount child + rest
                                 | None => rest
                                 end) 0 (children n).

(** Every triangle of one list tested against every triangle of the
    other. *)
Definition bruteForce (tsA tsB : list TriangleData) : list (TriangleData * TriangleData) :=
  flat_map (fun triA =>
              flat_map (fun triB =>
                          if intersectTriangleTriangle triA triB then [(triA, triB)] else [])
                       tsB)
           tsA.

(** ** prepareForDraw *)

(** What [prepareForDraw] reads from the marker node: the out parameter of
    [getChecksumA/B] when the status is a success, the value left in
    [smoothModeA/B] by [getSmoothMode] (its status is overwritten before
    it is looked at), the mesh [getInputDagMesh] yields for each plug when
    it succeeds, the offset matrices, the two [showMesh] plugs and the
    two face-id sets. *)
Record IntersectionMarkerNode := mkMarkerNode {
  getChecksumA : option Z;
  getChecksumB : option Z;
  smoothModeA : Z;
  smoothModeB : Z;
  meshA : option MFnMesh;
  smoothMeshA : option MFnMesh;
  meshB : option MFnMesh;
  smoothMeshB : option MFnMesh;
  offsetMatrixA : MMatrix;
  offsetMatrixB : MMatrix;
  showMeshA : bool;
  showMeshB : bool;
  intersectedFaceIdsA : gset Z;
  intersectedFaceIdsB : gset Z
}.

(** The outcome of [objPath.node(&status)], of the construction of
    [MFnDependencyNode depNodeFn(drawNode, &status)] and of
    [depNodeFn.userNode()]. *)
Record DrawRequest := mkRequest {
  objPathNode : bool;
  depNodeFn : bool;
  userNode : option IntersectionMarkerNode
}.

(** [IntersectionMarkerDrawOverride::prepareForDraw] on the member
    [prevChecksum] and the user data of the previous draw ([None]: null or
    of another class, then a fresh [IntersectionMarkerData] is made).
    Returns the data, the new [prevChecksum] and the messages. *)
Definition prepareForDraw (prevChecksum : Z) (request : DrawRequest)
    (oldData : option IntersectionMarkerData)
    : IntersectionMarkerData * Z * list Message :=
  let data := default (mkData []) oldData in
  if negb (objPathNode request) then
    (data, prevChecksum, [displayInfo "prepareForDraw: objPath.node is null"])
  else if negb (depNodeFn request) then
    (data, prevChecksum, [displayInfo "prepareForDraw: depNodeFn is null"])
  else
    match userNode request with
    | None => (data, prevChecksum, [])
    | Some node =>
    match getChecksumA node with
    | None => (data, prevChecksum, [displayInfo "prepareForDraw: getChecksumA failed"])
    | Some checkSumA =>
    match getChecksumB node with
    | None => (data, prevChecksum, [displayInfo "prepareForDraw: getChecksumB failed"])
    | Some checkSumB =>
      let newChecksum := Z.lxor checkSumA checkSumB in
      if (newChecksum >? 0)%Z && (newChecksum =? prevChecksum)%Z then
        (data, prevChecksum, [])
      else
        let data := mkData [] in
        let prevChecksum := newChecksum in
        match (if (smoothModeA node =? 0)%Z then meshA node else smoothMeshA node) with
        | None => (data, prevChecksum, [displayInfo "prepareForDraw: meshAFn is null"])
        | Some meshAFn =>
        match (if (smoothModeB node =? 0)%Z then meshB node else smoothMeshB node) with
        | None => (data, prevChecksum, [displayInfo "prepareForDraw: meshBFn is null"])
        | Some meshBFn =>
          let afterA :=
            if showMeshA node then
              addIntersectedVertices meshAFn data (intersectedFaceIdsA node)
                                     (offsetMatrixA node)
            else (data, []) in
          let afterB :=
            if showMeshB node then
              addIntersectedVertices meshBFn afterA.1 (intersectedFaceIdsB node)
                                     (offsetMatrixB node)
            else (afterA.1, []) in
          (afterB.1, prevChecksum, afterA.2 ++ afterB.2)
        end
        end
    end
    end
    end.

(** The request reaches the checksum test with checksums [a] and [b]. *)
Definition checksumsOf (request : DrawRequest) : option (Z * Z) :=
  if objPathNode request && depNodeFn request then
    node ← userNode request;
    a ← getChecksumA node;
    b ← getChecksumB node;
    Some (a, b)
  else None.

End Kernel.

Arguments MPoint D : clear implicits.
Arguments MVector D : clear implicits.
Arguments MBoundingBox D : clear implicits.
Arguments TriangleData D : clear implicits.
Arguments OctreeNode D : clear implicits.
Arguments TrianglePredicate D : clear implicits.
Arguments OctreeKernel D : clear implicits.
Arguments SpatialDivisionKernel D : clear implicits.
Arguments K2KIntersection D : clear implicits.
Arguments NodePairs D : clear implicits.
Arguments MFnMesh D : clear implicits.
Arguments FaceData D : clear implicits.
Arguments IntersectionMarkerData D : clear implicits.
Arguments MMatrix D : clear implicits.
Arguments OtherKernel {D} name.
Arguments OutOfFrames {A}.
Arguments Done {A} result activations.
Arguments Polygon D : clear implicits.
Arguments BoxTrianglePredicate D : clear implicits.
Arguments IntersectionMarkerNode D : clear implicits.
Arguments DrawRequest D : clear implicits.


(** ** A concrete arithmetic: integer lattice coordinates

    Used to run the definitions on concrete trees.  Division and square
    root round down; the sample boxes have power-of-two sides, so that
    the centres of the octants met are exact. *)

Module Lattice.

#[export] Instance Z_scalar : Scalar Z := {|
  s_lit := fun z => z;
  s_add := Z.add;
  s_sub := Z.sub;
  s_mul := Z.mul;
  s_div := Z.div;
  s_sqrt := Z.sqrt;
  s_ltb := Z.ltb;
  s_leb := Z.leb
|}.

Definition pt (x y z : Z) : MPoint Z := mkPoint x y z.

(** A triangle with the zero normal. *)
Definition tri (f i : Z) (a b c : MPoint Z) : TriangleData Z :=
  mkTriangle f i a b c (mkVector 0 0 0)%Z.

(** The bounding box of a triangle's vertices. *)
Definition boundsOf (t : TriangleData Z) : MBoundingBox Z :=
  let lo (f : MPoint Z -> Z) := Z.min (f (v0 t)) (Z.min (f (v1 t)) (f (v2 t))) in
  let hi (f : MPoint Z -> Z) := Z.max (f (v0 t)) (Z.max (f (v1 t)) (f (v2 t))) in
  mkBox (pt (lo px) (lo py) (lo pz)) (pt (hi px) (hi py) (hi pz)).

(** A conservative, symmetric stand-in for the triangle-triangle
    predicate: the triangles' bounding boxes overlap. *)
#[export] Instance boundsOverlap : TrianglePredicate Z := {|
  intersectTriangleTriangle := fun s t => intersects (boundsOf s) (boundsOf t)
|}.

(** A kernel built from one-triangle polygons, no transform. *)
Definition kernelOf (bbox : MBoundingBox Z) (ts : list (TriangleData Z)) : OctreeKernel Z :=
  mkKernel
    (build (map (fun t => mkPolygon (face_id t) (normal t) [(v0 t, v1 t, v2 t)]) ts)
           bbox (fun p => p)).

Definition cube64 : MBoundingBox Z := mkBox (pt 0 0 0) (pt 64 64 64).
Definition cube128 : MBoundingBox Z := mkBox (pt 0 0 0) (pt 128 128 128).
Definition farBox : MBoundingBox Z := mkBox (pt 90 90 90) (pt 110 110 110).

(** A small triangle near the corner (8,8,8). *)
Definition small (f : Z) : TriangleData Z := tri f 0 (pt 8 8 8) (pt 10 8 8) (pt 8 10 8).

(** A triangle whose vertices lie in three different octants of [cube64]. *)
Definition wide (f : Z) : TriangleData Z := tri f 0 (pt 8 8 8) (pt 56 8 8) (pt 8 56 8).

(** A triangle outside [cube64], nearest to its last-but-one octant. *)
Definition outside (f : Z) : TriangleData Z :=
  tri f 0 (pt 100 100 100) (pt 103 100 100) (pt 100 103 100).

(** A leaf with room, a full leaf, and the full leaf after its split. *)
Definition roomyLeaf : OctreeNode Z := mkNode cube64 (replicate 8 None) [small 0; wide 1].
Definition fullLeaf : OctreeNode Z :=
  mkNode cube64 (replicate 8 None) (map small (seqZ 0 10)).
Definition interior : OctreeNode Z := splitNode fullLeaf.

(** Eleven small triangles split the root; the triangle outside the root
    box is accepted by no child and stays at the interior root. *)
Definition kernelA : OctreeKernel Z :=
  kernelOf cube64 (map small (seqZ 0 11) ++ [outside 99]).

(** One triangle, at the place of triangle 99 of [kernelA]; the root is a leaf. *)
Definition kernelB : OctreeKernel Z := kernelOf cube128 [outside 7].

(** Three wide triangles and eight small ones: after the split the wide
    triangles are copied into three children. *)
Definition kernelW : OctreeKernel Z :=
  kernelOf cube64 (map small (seqZ 0 10) ++ [wide 20; wide 21]).

(** Two triangles in a leaf root on the larger box. *)
Definition kernelS : OctreeKernel Z := kernelOf cube128 [small 30; outside 31].

(** A leaf with one triangle of each kind. *)
Definition mixedLeaf : OctreeNode Z :=
  mkNode cube64 (replicate 8 None) [small 0; wide 1; outside 2].

(** A kernel away from [cube64]. *)
Definition kernelFar : OctreeKernel Z := kernelOf farBox [outside 3].

(** A large box and a full leaf of equal triangles: every split moves all
    of them into the same child. *)
Definition cubeBig : MBoundingBox Z :=
  mkBox (pt 0 0 0) (pt (2 ^ 40) (2 ^ 40) (2 ^ 40)).
Definition speck (f : Z) : TriangleData Z := tri f 0 (pt 1 1 1) (pt 2 1 1) (pt 1 2 1).
Definition clusterLeaf : OctreeNode Z :=
  mkNode cubeBig (replicate 8 None) (map speck (seqZ 0 10)).

(** A mesh of two triangles on three polygons' worth of face ids. *)
Definition twoFaces : MFnMesh Z :=
  mkMesh 2 [1; 1]%Z [0; 1; 2; 1; 2; 3]%Z
         [pt 0 0 0; pt 4 0 0; pt 0 4 0; pt 4 4 0]
         (fun _ => mkVector 0 0 1000)%Z.

(** A conservative stand-in for the box-triangle test: the box overlaps
    the bounding box of the triangle. *)
#[export] Instance boxOverlap : BoxTrianglePredicate Z := {|
  intersectBoxTriangle := fun box t => intersects box (boundsOf t)
|}.

(** One-triangle polygons for the given triangles. *)
Definition meshOf (ts : list (TriangleData Z)) : list (Polygon Z) :=
  map (fun t => mkPolygon (face_id t) (normal t) [(v0 t, v1 t, v2 t)]) ts.

(** Two meshes of two polygons each, and a mesh whose only polygon has
    no triangle. *)
Definition pairMesh : list (Polygon Z) := meshOf [small 0; wide 1].
Definition cornerMesh : list (Polygon Z) := meshOf [small 0; outside 1].

(** A marker node with the given checksums and mesh A, and the request
    that reaches it. *)
Definition markerNode (a b : Z) (meshAFn : option (MFnMesh Z)) : IntersectionMarkerNode Z :=
  mkMarkerNode (Some a) (Some b) 0 0 meshAFn None (Some twoFaces) None
               (fun p => p) (fun p => p) true true {[ 0%Z ]} {[ 1%Z ]}.
Definition requestFor (node : IntersectionMarkerNode Z) : DrawRequest Z :=
  mkRequest true true (Some node).

(** Data left by an earlier draw. *)
Definition staleData : IntersectionMarkerData Z :=
  mkData [faceDataOf twoFaces (fun p => p) 1].






End Lattice.

(** * Properties *)

Section Properties.
Context {D : Type} `{Scalar D} {TP : TrianglePredicate D}.
Implicit Types (a b n : OctreeNode D) (t : TriangleData D).

(** ** Induction on nodes and on pairs of nodes *)

Lemma OctreeNode_children_ind (P : OctreeNode D -> Prop) :
  (forall n, (forall child, Some child ∈ children n -> P child) -> P n) ->
  forall n, P n.
Proof.
  intros step.
  fix IH 1. intros [bb cs ts]. apply step. simpl.
  induction cs as [|c cs IHcs]; intros child Hin.
  - inversion Hin.
  - apply elem_of_cons in Hin as [Heq | Hin].
    + destruct c as [c|]; [|discriminate]. injection Heq as ->. apply IH.
    + now apply IHcs.
Qed.

(** The traversal descends in the first node, in the second, or in both. *)
Lemma node_pair_ind (P : OctreeNode D -> OctreeNode D -> Prop) :
  (forall a b,
      (forall cB, Some cB ∈ children b -> P a cB) ->
      (forall cA, Some cA ∈ children a -> P cA b) ->
      (forall cA cB, Some cA ∈ children a -> Some cB ∈ children b -> P cA cB) ->
      P a b) ->
  forall a b, P a b.
Proof.
  intros step a.
  induction a as [a IHa] using OctreeNode_children_ind.
  intros b. induction b as [b IHb] using OctreeNode_children_ind.
  apply step; auto.
Qed.

(** ** Geometry *)

Lemma overlapOn_sym (axis : MPoint D -> D) (x y : MBoundingBox D) :
  overlapOn axis x y = overlapOn axis y x.
Proof. unfold overlapOn. apply andb_comm. Qed.

Lemma intersects_sym (x y : MBoundingBox D) : intersects x y = intersects y x.
Proof.
  unfold intersects.
  now rewrite (overlapOn_sym px), (overlapOn_sym py), (overlapOn_sym pz).
Qed.

(** Boxes that are apart on one axis do not intersect. *)
Lemma apart_on_an_axis (x y : MBoundingBox D) :
  intersects x y = false <->
  overlapOn px x y = false \/ overlapOn py x y = false \/ overlapOn pz x y = false.
Proof.
  unfold intersects.
  destruct (overlapOn px x y), (overlapOn py x y), (overlapOn pz x y); simpl;
    intuition discriminate.
Qed.

(** ** The dual-tree traversal *)

Lemma descend_unfold a b acc :
  intersectOctreeNodesRecursive a b acc =
  if negb (intersects (boundingBox a) (boundingBox b)) then acc
  else if isLeaf a && isLeaf b then acc ++ [(a, b)]
  else if isLeaf a then
    fold_left (fun acc cB => match cB with
                             | Some childB => intersectOctreeNodesRecursive a childB acc
                             | None => acc
                             end) (children b) acc
  else if isLeaf b then
    fold_left (fun acc cA => match cA with
                             | Some childA => intersectOctreeNodesRecursive childA b acc
                             | None => acc
                             end) (children a) acc
  else
    fold_left (fun acc cA =>
      fold_left (fun acc cB => match cA, cB with
                               | Some childA, Some childB =>
                                   intersectOctreeNodesRecursive childA childB acc
                               | _, _ => acc
                               end) (children b) acc) (children a) acc.
Proof. destruct a, b; reflexivity. Qed.

(** A loop that only appends equals the concatenation of what each
    iteration appends. *)
Lemma fold_left_appends {A B} (f : list B -> A -> list B) (g : A -> list B) (l : list A) :
  (forall x, x ∈ l -> forall acc, f acc x = acc ++ g x) ->
  forall acc, fold_left f l acc = acc ++ flat_map g l.
Proof.
  induction l as [|x l IH]; intros Hf acc; simpl.
  - now rewrite app_nil_r.
  - rewrite Hf by apply list_elem_of_here.
    rewrite IH by (intros; apply Hf; now apply list_elem_of_further).
    now rewrite <- app_assoc.
Qed.

Lemma descend_app a b :
  forall acc, intersectOctreeNodesRecursive a b acc = acc ++ emitted a b.
Proof.
  unfold emitted. revert a b. apply (node_pair_ind (fun a b => forall acc, _ = _)).
  intros a b IHb IHa IHab acc.
  rewrite (descend_unfold a b acc), (descend_unfold a b []).
  destruct (negb _); [now rewrite app_nil_r|].
  destruct (isLeaf a && isLeaf b); [reflexivity|].
  destruct (isLeaf a); [|destruct (isLeaf b)].
  - assert (HB : forall cB, cB ∈ children b -> forall acc',
        match cB with
        | Some childB => intersectOctreeNodesRecursive a childB acc'
        | None => acc'
        end = acc' ++ emitB a cB).
    { intros [cB|] Hin acc'; simpl; rewrite ?app_nil_r; auto. }
    now rewrite !(fold_left_appends _ _ _ HB).
  - assert (HA : forall cA, cA ∈ children a -> forall acc',
        match cA with
        | Some childA => intersectOctreeNodesRecursive childA b acc'
        | None => acc'
        end = acc' ++ emitA b cA).
    { intros [cA|] Hin acc'; simpl; rewrite ?app_nil_r; auto. }
    now rewrite !(fold_left_appends _ _ _ HA).
  - assert (HAB : forall cA, cA ∈ children a -> forall acc',
        fold_left (fun acc cB => match cA, cB with
                                 | Some childA, Some childB =>
                                     intersectOctreeNodesRecursive childA childB acc
                                 | _, _ => acc
                                 end) (children b) acc'
        = acc' ++ flat_map (emitAB cA) (children b)).
    { intros cA HcA acc'. apply fold_left_appends.
      intros cB HcB acc''. destruct cA as [cA|], cB as [cB|]; simpl;
        rewrite ?app_nil_r; auto. }
    now rewrite !(fold_left_appends _ _ _ HAB).
Qed.

(** The pairs emitted, as an equation on the emitted lists. *)
Lemma emitted_unfold a b :
  emitted a b =
  if negb (intersects (boundingBox a) (boundingBox b)) then []
  else if isLeaf a && isLeaf b then [(a, b)]
  else if isLeaf a then flat_map (emitB a) (children b)
  else if isLeaf b then flat_map (emitA b) (children a)
  else flat_map (fun cA => flat_map (emitAB cA) (children b)) (children a).
Proof.
  unfold emitted at 1. rewrite descend_unfold.
  destruct (negb _); [reflexivity|].
  destruct (isLeaf a && isLeaf b); [reflexivity|].
  destruct (isLeaf a); [|destruct (isLeaf b)].
  - change (flat_map (emitB a) (children b)) with ([] ++ flat_map (emitB a) (children b)).
    apply (fold_left_appends _ (emitB a)).
    intros [cB|] _ acc; simpl; rewrite ?app_nil_r; auto using descend_app.
  - change (flat_map (emitA b) (children a)) with ([] ++ flat_map (emitA b) (children a)).
    apply (fold_left_appends _ (emitA b)).
    intros [cA|] _ acc; simpl; rewrite ?app_nil_r; auto using descend_app.
  - match goal with |- _ = ?r => change r with ([] ++ r) end.
    apply (fold_left_appends _ (fun cA => flat_map (emitAB cA) (children b))).
    intros cA _ acc. apply fold_left_appends.
    intros cB _ acc'. destruct cA as [cA|], cB as [cB|]; simpl;
      rewrite ?app_nil_r; auto using descend_app.
Qed.

Lemma elem_of_flat_map {A B} (f : A -> list B) (l : list A) (y : B) :
  y ∈ flat_map f l <-> exists x, x ∈ l /\ y ∈ f x.
Proof.
  rewrite list_elem_of_In, in_flat_map.
  split; intros (x & Hx & Hy); exists x;
    [rewrite !list_elem_of_In | rewrite <- !list_elem_of_In]; auto.
Qed.

Lemma nodesOf_self n : n ∈ nodesOf n.
Proof. destruct n; simpl. apply list_elem_of_here. Qed.

Lemma nodesOf_child n child x :
  Some child ∈ children n -> x ∈ nodesOf child -> x ∈ nodesOf n.
Proof.
  intros Hc Hx. destruct n as [bb cs ts]; simpl in *.
  apply list_elem_of_further, elem_of_flat_map. now exists (Some child).
Qed.

(** Every emitted pair is a pair of leaves, one of each tree, whose boxes
    intersect. *)
Lemma emitted_leaf_pairs :
  forall a b x y, (x, y) ∈ emitted a b ->
    isLeaf x = true /\ isLeaf y = true /\
    intersects (boundingBox x) (boundingBox y) = true /\
    x ∈ nodesOf a /\ y ∈ nodesOf b.
Proof.
  apply (node_pair_ind (fun a b => forall x y, _ -> _)).
  intros a b IHb IHa IHab x y. rewrite emitted_unfold.
  destruct (intersects _ _) eqn:Hbox; simpl; [|intros Hin; inversion Hin].
  destruct (isLeaf a) eqn:HlA; [destruct (isLeaf b) eqn:HlB | destruct (isLeaf b) eqn:HlB];
    simpl.
  - intros Hin. apply list_elem_of_singleton in Hin. injection Hin as -> ->.
    auto using nodesOf_self.
  - intros (cB & HcB & Hin)%elem_of_flat_map. destruct cB as [cB|]; [|inversion Hin].
    destruct (IHb cB HcB x y Hin) as (? & ? & ? & ? & ?).
    repeat split; eauto using nodesOf_child.
  - intros (cA & HcA & Hin)%elem_of_flat_map. destruct cA as [cA|]; [|inversion Hin].
    destruct (IHa cA HcA x y Hin) as (? & ? & ? & ? & ?).
    repeat split; eauto using nodesOf_child.
  - intros (cA & HcA & (cB & HcB & Hin)%elem_of_flat_map)%elem_of_flat_map.
    destruct cA as [cA|], cB as [cB|]; try (inversion Hin; fail).
    destruct (IHab cA cB HcA HcB x y Hin) as (? & ? & ? & ? & ?).
    repeat split; eauto using nodesOf_child.
Qed.

(** *** Triangles at interior nodes *)

Lemma isLeaf_all_None n :
  isLeaf n = true -> forall c, c ∈ children n -> c = None.
Proof.
  unfold isLeaf. intros Hall c Hc.
  rewrite forallb_forall in Hall. apply list_elem_of_In, Hall in Hc.
  now destruct c.
Qed.

Lemma clearInterior_unfold n :
  clearInterior n =
  mkNode (boundingBox n) (map (option_map clearInterior) (children n))
         (if isLeaf n then triangles n else []).
Proof. destruct n; reflexivity. Qed.

Lemma isLeaf_clearInterior n : isLeaf (clearInterior n) = isLeaf n.
Proof.
  rewrite clearInterior_unfold. unfold isLeaf; simpl.
  induction (children n) as [|[c|] cs IH]; simpl; auto.
Qed.

Lemma boundingBox_clearInterior n : boundingBox (clearInterior n) = boundingBox n.
Proof. now rewrite clearInterior_unfold. Qed.

Lemma children_clearInterior n :
  children (clearInterior n) = map (option_map clearInterior) (children n).
Proof. now rewrite clearInterior_unfold. Qed.

(** A leaf is left as it is. *)
Lemma clearInterior_leaf n : isLeaf n = true -> clearInterior n = n.
Proof.
  intros Hleaf. rewrite clearInterior_unfold, Hleaf.
  destruct n as [bb cs ts]; simpl. f_equal.
  pose proof (isLeaf_all_None _ Hleaf) as Hnone. simpl in Hnone.
  induction cs as [|c cs IH]; simpl; [reflexivity|].
  rewrite (Hnone c) by apply list_elem_of_here. simpl. f_equal.
  apply IH.
  - unfold isLeaf in *; simpl in *. now apply andb_true_iff in Hleaf as [_ ?].
  - intros c' Hc'. apply Hnone. now apply list_elem_of_further.
Qed.

Lemma flat_map_ext_elem {A B} (f g : A -> list B) (l : list A) :
  (forall x, x ∈ l -> f x = g x) -> flat_map f l = flat_map g l.
Proof.
  induction l as [|x l IH]; intros Hfg; simpl; [reflexivity|].
  rewrite Hfg by apply list_elem_of_here. f_equal.
  apply IH. intros y Hy. now apply Hfg, list_elem_of_further.
Qed.

Lemma flat_map_map {A B C} (f : B -> list C) (g : A -> B) (l : list A) :
  flat_map f (map g l) = flat_map (fun x => f (g x)) l.
Proof. induction l as [|x l IH]; simpl; [reflexivity|]. now rewrite IH. Qed.

(** The traversal emits the same pairs whatever the interior nodes hold. *)
Lemma emitted_clearInterior :
  forall a b, emitted (clearInterior a) (clearInterior b) = emitted a b.
Proof.
  apply node_pair_ind. intros a b IHb IHa IHab.
  rewrite (emitted_unfold (clearInterior a)), (emitted_unfold a).
  rewrite !boundingBox_clearInterior, !isLeaf_clearInterior, !children_clearInterior.
  destruct (negb _); [reflexivity|].
  destruct (isLeaf a) eqn:HlA; [destruct (isLeaf b) eqn:HlB | destruct (isLeaf b) eqn:HlB];
    simpl.
  - now rewrite !clearInterior_leaf.
  - rewrite flat_map_map. apply flat_map_ext_elem.
    intros [cB|] HcB; simpl; auto.
  - rewrite flat_map_map. apply flat_map_ext_elem.
    intros [cA|] HcA; simpl; auto.
  - rewrite flat_map_map. apply flat_map_ext_elem. intros cA HcA.
    rewrite flat_map_map. apply flat_map_ext_elem. intros cB HcB.
    destruct cA as [cA|], cB as [cB|]; simpl; auto.
Qed.

(** ** The kernel-vs-kernel query *)

(** Two vectors that are only appended to, in step. *)
Lemma fold_left_paired {A B C} (f : list B * list C -> A -> list B * list C)
    (g : A -> list (B * C)) (l : list A) :
  (forall x, x ∈ l -> forall acc,
      f acc x = (acc.1 ++ map fst (g x), acc.2 ++ map snd (g x))) ->
  forall acc,
    fold_left f l acc =
    (acc.1 ++ map fst (flat_map g l), acc.2 ++ map snd (flat_map g l)).
Proof.
  induction l as [|x l IH]; intros Hf acc; simpl.
  - rewrite !app_nil_r. now destruct acc.
  - rewrite Hf by apply list_elem_of_here.
    rewrite IH by (intros; apply Hf; now apply list_elem_of_further).
    simpl. now rewrite !map_app, !app_assoc.
Qed.

Lemma testTriangles_hits a b (acc : K2KIntersection D) :
  testTriangles a b acc =
  (acc.1 ++ map fst (hitsOf a b), acc.2 ++ map snd (hitsOf a b)).
Proof.
  unfold testTriangles, hitsOf.
  apply fold_left_paired. intros triA _ acc1.
  apply fold_left_paired. intros triB _ acc2.
  destruct (intersectTriangleTriangle triA triB); simpl;
    [reflexivity | rewrite !app_nil_r; now destruct acc2].
Qed.

Lemma testPair_hits (acc : K2KIntersection D) (pair : OctreeNode D * OctreeNode D) :
  testPair acc pair =
  (acc.1 ++ map fst (pairHits pair), acc.2 ++ map snd (pairHits pair)).
Proof.
  unfold testPair, pairHits.
  destruct (isLeaf pair.1 && isLeaf pair.2).
  - apply testTriangles_hits.
  - simpl. rewrite !app_nil_r. now destruct acc.
Qed.

(** The query returns the two projections of one list of hits. *)
Lemma intersectKernelKernel_hits (this other : OctreeKernel D) :
  intersectKernelKernel this (Octree other) =
  ((map fst (flat_map pairHits (emitted (root this) (root other))),
    map snd (flat_map pairHits (emitted (root this) (root other)))), []).
Proof.
  unfold intersectKernelKernel, dynamic_cast.
  change (intersectOctreeNodesRecursive (root this) (root other) [])
    with (emitted (root this) (root other)).
  f_equal.
  exact (fold_left_paired testPair pairHits _ (fun x _ acc => testPair_hits acc x) ([], [])).
Qed.

Lemma elem_of_hitsOf a b s t :
  (s, t) ∈ hitsOf a b <->
  s ∈ triangles a /\ t ∈ triangles b /\ intersectTriangleTriangle s t = true.
Proof.
  unfold hitsOf. rewrite elem_of_flat_map. split.
  - intros (triA & HA & (triB & HB & Hin)%elem_of_flat_map).
    destruct (intersectTriangleTriangle triA triB) eqn:Hit; [|inversion Hin].
    apply list_elem_of_singleton in Hin. injection Hin as -> ->. auto.
  - intros (HA & HB & Hit). exists s. split; [assumption|].
    apply elem_of_flat_map. exists t. split; [assumption|].
    rewrite Hit. apply list_elem_of_here.
Qed.

(** A hit of the query: a predicate hit between triangles of an emitted
    pair of leaves. *)
Lemma elem_of_all_hits a b s t :
  (s, t) ∈ flat_map pairHits (emitted a b) <->
  exists x y, (x, y) ∈ emitted a b /\
              s ∈ triangles x /\ t ∈ triangles y /\
              intersectTriangleTriangle s t = true.
Proof.
  rewrite elem_of_flat_map. split.
  - intros ([x y] & Hxy & Hin). unfold pairHits in Hin; simpl in Hin.
    destruct (isLeaf x && isLeaf y); [|inversion Hin].
    apply elem_of_hitsOf in Hin. eauto.
  - intros (x & y & Hxy & Hhit). exists (x, y). split; [assumption|].
    destruct (emitted_leaf_pairs _ _ _ _ Hxy) as (Hx & Hy & _).
    unfold pairHits; simpl. rewrite Hx, Hy; simpl.
    now apply elem_of_hitsOf.
Qed.

(** C1. For every pair of octree kernels, every pair of nodes emitted by
    the dual-tree traversal consists of a leaf of the first tree and a
    leaf of the second whose bounding boxes intersect; every triangle the
    query returns is stored at a leaf of its tree; and the query returns
    the same result when the triangle lists of all interior nodes of both
    trees are emptied: a triangle stored at an interior node is never
    tested and never contributes. *)
Theorem kernel_query_visits_leaf_pairs_only (this other : OctreeKernel D) :
  (forall x y, (x, y) ∈ emitted (root this) (root other) ->
     isLeaf x = true /\ isLeaf y = true /\
     intersects (boundingBox x) (boundingBox y) = true /\
     x ∈ nodesOf (root this) /\ y ∈ nodesOf (root other)) /\
  (forall s t, (s, t) ∈ flat_map pairHits (emitted (root this) (root other)) ->
     exists x y, x ∈ nodesOf (root this) /\ y ∈ nodesOf (root other) /\
                 isLeaf x = true /\ isLeaf y = true /\
                 s ∈ triangles x /\ t ∈ triangles y) /\
  intersectKernelKernel (mkKernel (clearInterior (root this)))
                        (Octree (mkKernel (clearInterior (root other))))
  = intersectKernelKernel this (Octree other).
Proof.
  split; [|split].
  - apply emitted_leaf_pairs.
  - intros s t (x & y & Hxy & Hs & Ht & _)%elem_of_all_hits.
    destruct (emitted_leaf_pairs _ _ _ _ Hxy) as (Hx & Hy & _ & HxA & HyB).
    exists x, y. auto 10.
  - rewrite !intersectKernelKernel_hits; simpl.
    now rewrite emitted_clearInterior.
Qed.

(** C6. When the bounding boxes of the two roots fail to overlap on some
    axis, the test [nodeA->boundingBox.intersects(nodeB->boundingBox)]
    fails at the roots and the query returns two empty vectors: no face
    id of either mesh is reported. *)
Theorem disjoint_roots_give_empty_result (this other : OctreeKernel D) :
  overlapOn px (boundingBox (root this)) (boundingBox (root other)) = false \/
  overlapOn py (boundingBox (root this)) (boundingBox (root other)) = false \/
  overlapOn pz (boundingBox (root this)) (boundingBox (root other)) = false ->
  intersects (boundingBox (root this)) (boundingBox (root other)) = false /\
  intersectKernelKernel this (Octree other) = (([], []), []).
Proof.
  intros Hbox%apart_on_an_axis. split; [assumption|].
  rewrite intersectKernelKernel_hits.
  rewrite emitted_unfold, Hbox. reflexivity.
Qed.

(** The driver then hands two empty face-id sets to the host. *)
Corollary disjoint_roots_give_empty_sets (this other : OctreeKernel D) :
  intersects (boundingBox (root this)) (boundingBox (root other)) = false ->
  intersect this (Octree other) = (∅, ∅).
Proof.
  intros Hbox. unfold intersect. rewrite intersectKernelKernel_hits.
  rewrite emitted_unfold, Hbox. reflexivity.
Qed.

(** C7. When the other kernel is not an octree kernel (the dynamic cast
    fails), the query returns two empty triangle vectors and its only
    effect is the error message; the kernels are not touched. *)
Theorem incompatible_kernel_gives_empty_pair
    (this : OctreeKernel D) (otherKernel : SpatialDivisionKernel D) :
  dynamic_cast otherKernel = None ->
  intersectKernelKernel this otherKernel =
  (([], []), [displayError "Cannot intersect octree with other kernel type!"]).
Proof. intros Hcast. unfold intersectKernelKernel. now rewrite Hcast. Qed.

(** C10. The two vectors returned by the query have the same length, and
    at every index the triangle of the first and the triangle of the
    second satisfy the triangle-triangle predicate and come from one
    emitted pair of leaves. *)
Theorem result_vectors_are_paired (this other : OctreeKernel D) :
  let r := (intersectKernelKernel this (Octree other)).1 in
  length r.1 = length r.2 /\
  forall (i : nat) (triA triB : TriangleData D),
    r.1 !! i = Some triA -> r.2 !! i = Some triB ->
    intersectTriangleTriangle triA triB = true /\
    exists x y, (x, y) ∈ emitted (root this) (root other) /\
                triA ∈ triangles x /\ triB ∈ triangles y.
Proof.
  rewrite intersectKernelKernel_hits; simpl.
  set (hits := flat_map pairHits (emitted (root this) (root other))).
  split; [now rewrite !length_map|].
  intros i triA triB HA HB.
  rewrite list_lookup_fmap in HA, HB.
  destruct (hits !! i) as [[s t]|] eqn:Hi; simpl in *; [|discriminate].
  injection HA as <-. injection HB as <-.
  apply list_elem_of_lookup_2, elem_of_all_hits in Hi.
  destruct Hi as (x & y & Hxy & Hs & Ht & Hit). eauto 10.
Qed.

(** ** Face-id sets *)

Lemma elem_of_collectFaceIds (ts : list (TriangleData D)) (f : Z) :
  f ∈ collectFaceIds ts <-> exists t, t ∈ ts /\ face_id t = f.
Proof.
  unfold collectFaceIds.
  assert (Hgen : forall ids : gset Z,
    f ∈ fold_left (fun (ids : gset Z) t => {[ face_id t ]} ∪ ids) ts ids <->
    f ∈ ids \/ exists t, t ∈ ts /\ face_id t = f).
  { induction ts as [|t ts IH]; intros ids; simpl.
    - split; [auto | intros [?|(t & Hin & _)]; [assumption | inversion Hin]].
    - rewrite IH, elem_of_union, elem_of_singleton. split.
      + intros [[->|?]|(t' & Hin & Heq)]; eauto using list_elem_of_here, list_elem_of_further.
      + intros [?|(t' & Hin & Heq)]; auto.
        apply elem_of_cons in Hin as [->|Hin]; eauto. }
  rewrite Hgen. split; [intros [Hempty|?]; [|assumption] | auto].
  now apply not_elem_of_empty in Hempty.
Qed.

(** The traversal of [(b, a)] emits the pairs of [(a, b)], swapped. *)
Lemma emitted_swap :
  forall a b x y, (x, y) ∈ emitted a b -> (y, x) ∈ emitted b a.
Proof.
  apply (node_pair_ind (fun a b => forall x y, _ -> _)).
  intros a b IHb IHa IHab x y.
  rewrite (emitted_unfold a b), (emitted_unfold b a).
  rewrite (intersects_sym (boundingBox b)), (andb_comm (isLeaf b)).
  destruct (negb _); [intros Hin; inversion Hin|].
  destruct (isLeaf a) eqn:HlA; [destruct (isLeaf b) eqn:HlB | destruct (isLeaf b) eqn:HlB];
    simpl.
  - intros Hin. apply list_elem_of_singleton in Hin. injection Hin as -> ->.
    apply list_elem_of_here.
  - rewrite !elem_of_flat_map. intros ([cB|] & HcB & Hin); [|inversion Hin].
    exists (Some cB). split; [assumption|]. now apply IHb.
  - rewrite !elem_of_flat_map. intros ([cA|] & HcA & Hin); [|inversion Hin].
    exists (Some cA). split; [assumption|]. now apply IHa.
  - rewrite !elem_of_flat_map.
    intros (cA & HcA & (cB & HcB & Hin)%elem_of_flat_map).
    exists cB. split; [assumption|]. apply elem_of_flat_map.
    exists cA. split; [assumption|].
    destruct cA as [cA|], cB as [cB|]; try (inversion Hin; fail).
    now apply IHab.
Qed.

Lemma symmetricOn_swap a b : symmetricOn a b -> symmetricOn b a.
Proof.
  intros Hsym y x v u Hy Hly Hx Hlx Hv Hu. symmetry.
  now apply (Hsym x y u v).
Qed.

Lemma all_hits_swap a b s t :
  symmetricOn a b ->
  (s, t) ∈ flat_map pairHits (emitted a b) ->
  (t, s) ∈ flat_map pairHits (emitted b a).
Proof.
  intros Hsym (x & y & Hxy & Hs & Ht & Hit)%elem_of_all_hits.
  apply elem_of_all_hits. exists y, x.
  destruct (emitted_leaf_pairs _ _ _ _ Hxy) as (Hlx & Hly & _ & Hx & Hy).
  rewrite (Hsym x y s t) in Hit by assumption. auto using emitted_swap.
Qed.

Lemma elem_of_map_fst {A B} (l : list (A * B)) (x : A) :
  x ∈ map fst l <-> exists y, (x, y) ∈ l.
Proof.
  rewrite list_elem_of_fmap. split.
  - intros ([x' y] & -> & Hin). now exists y.
  - intros (y & Hin). now exists (x, y).
Qed.

Lemma elem_of_map_snd {A B} (l : list (A * B)) (y : B) :
  y ∈ map snd l <-> exists x, (x, y) ∈ l.
Proof.
  rewrite list_elem_of_fmap. split.
  - intros ([x y'] & -> & Hin). now exists x.
  - intros (x & Hin). now exists (x, y).
Qed.

(** Swapping the kernels swaps the two vectors, as sets. *)
Lemma query_vectors_swap (A B : OctreeKernel D) :
  symmetricOn (root A) (root B) ->
  let ab := (intersectKernelKernel A (Octree B)).1 in
  let ba := (intersectKernelKernel B (Octree A)).1 in
  (forall t, t ∈ ab.1 <-> t ∈ ba.2) /\ (forall t, t ∈ ab.2 <-> t ∈ ba.1).
Proof.
  intros Hsym ab ba. subst ab ba. rewrite !intersectKernelKernel_hits; simpl.
  pose proof (symmetricOn_swap _ _ Hsym) as Hsym'.
  split; intros t; rewrite elem_of_map_fst, elem_of_map_snd;
    split; intros (u & Hin); exists u; now apply all_hits_swap.
Qed.

Lemma face_ids_of_equal_sets (l l' : list (TriangleData D)) :
  (forall t, t ∈ l <-> t ∈ l') ->
  list_to_set (map face_id l) =@{gset Z} list_to_set (map face_id l').
Proof.
  intros Hsame. apply set_eq. intros f.
  rewrite !elem_of_list_to_set, !list_elem_of_fmap.
  split; intros (t & Hf & Hin); exists t; (split; [assumption|]); now apply Hsame.
Qed.

Lemma collectFaceIds_list_to_set (ts : list (TriangleData D)) :
  collectFaceIds ts = list_to_set (map face_id ts).
Proof.
  apply set_eq. intros f.
  rewrite elem_of_collectFaceIds, elem_of_list_to_set, list_elem_of_fmap.
  split; intros (t & ? & ?); exists t; auto.
Qed.


(** The face-id sets of the driver are symmetric for a predicate that is
    symmetric everywhere. *)
Corollary intersect_sets_symmetric (A B : OctreeKernel D) :
  (forall u v, intersectTriangleTriangle u v = intersectTriangleTriangle v u) ->
  (intersect A (Octree B)).1 = (intersect B (Octree A)).2 /\
  (intersect A (Octree B)).2 = (intersect B (Octree A)).1.
Proof.
  intros Hsym. unfold intersect; simpl. rewrite !collectFaceIds_list_to_set.
  destruct (query_vectors_swap A B) as [Hfst Hsnd].
  { intros x y u v _ _ _ _ _ _. apply Hsym. }
  split; apply face_ids_of_equal_sets; assumption.
Qed.


(** ** Result assembly *)

Lemma out_of_bounds_test (mesh : MFnMesh D) (faceId : Z) :
  (faceId <? 0)%Z || (faceId >=? numPolygons mesh)%Z = negb (faceIdInRange mesh faceId).
Proof.
  unfold faceIdInRange.
  destruct (Z.ltb_spec faceId 0), (Z.leb_spec 0 faceId),
           (Z.ltb_spec faceId (numPolygons mesh)); simpl; try lia;
    rewrite ?Z.geb_leb; try reflexivity;
    try (apply Z.leb_le; lia); try (apply Z.leb_gt; lia).
Qed.

Lemma addFace_loop (mesh : MFnMesh D) (offsetMatrix : MMatrix D) (ids : list Z) :
  forall st : IntersectionMarkerData D * list Message,
    let out := fold_left (addFace mesh offsetMatrix) ids st in
    faces out.1 =
      faces st.1 ++ map (faceDataOf mesh offsetMatrix)
                        (List.filter (faceIdInRange mesh) ids) /\
    out.2 =
      st.2 ++ map (fun faceId => displayInfo ("Face ID out of bounds: " +:+ pretty faceId))
                  (List.filter (fun faceId => negb (faceIdInRange mesh faceId)) ids).
Proof.
  induction ids as [|faceId ids IH]; intros st; simpl.
  - now rewrite !app_nil_r.
  - destruct (IH (addFace mesh offsetMatrix st faceId)) as [Hfaces Hmsgs].
    rewrite Hfaces, Hmsgs. unfold addFace. rewrite out_of_bounds_test.
    destruct (faceIdInRange mesh faceId); simpl; rewrite <- ?app_assoc; auto.
Qed.

(** C8. During result assembly a face id that is negative or not below
    the polygon count adds no face data and makes one diagnostic message;
    the loop goes on, and every face id in range adds its face data. *)
Theorem invalid_face_ids_are_skipped (mesh : MFnMesh D) (data : IntersectionMarkerData D)
    (intersectedFaceIds : gset Z) (offsetMatrix : MMatrix D) :
  let out := addIntersectedVertices mesh data intersectedFaceIds offsetMatrix in
  faces out.1 =
    faces data ++ map (faceDataOf mesh offsetMatrix)
                      (List.filter (faceIdInRange mesh) (elements intersectedFaceIds)) /\
  out.2 =
    map (fun faceId => displayInfo ("Face ID out of bounds: " +:+ pretty faceId))
        (List.filter (fun faceId => negb (faceIdInRange mesh faceId))
                     (elements intersectedFaceIds)).
Proof. apply (addFace_loop mesh offsetMatrix _ (data, [])). Qed.

(** ** splitNode *)

Lemma octants_length (bb : MBoundingBox D) : length (octants bb) = 8.
Proof. reflexivity. Qed.

(** The first loop of [splitNode] stops at the first box that contains
    all three vertices. *)
Lemma firstContaining_Some (boxes : list (MBoundingBox D)) t :
  forall start i, firstContaining boxes t start = Some i ->
    start <= i /\ i - start < length boxes /\
    boxContainsAllVertices (boxes !!! (i - start)) t = true /\
    forall j, j < i - start -> boxContainsAllVertices (boxes !!! j) t = false.
Proof.
  induction boxes as [|b boxes IH]; intros start i; simpl; [discriminate|].
  destruct (boxContainsAllVertices b t) eqn:Hb.
  - intros [= <-]. rewrite Nat.sub_diag. simpl. repeat split; auto; lia.
  - intros Hrest. destruct (IH _ _ Hrest) as (Hle & Hlt & Hhit & Hmiss).
    replace (i - start) with (S (i - S start)) by lia.
    repeat split; try lia; [assumption|].
    intros [|j] Hj; [assumption|]. apply Hmiss. lia.
Qed.

Lemma firstContaining_None (boxes : list (MBoundingBox D)) t :
  forall start, firstContaining boxes t start = None ->
    forall j, j < length boxes -> boxContainsAllVertices (boxes !!! j) t = false.
Proof.
  induction boxes as [|b boxes IH]; intros start; simpl; [intros _ j Hj; lia|].
  destruct (boxContainsAllVertices b t) eqn:Hb; [discriminate|].
  intros Hrest [|j] Hj; [assumption|]. apply (IH _ Hrest). lia.
Qed.

(** The second loop after the indices [1..n]: the winner is an index up
    to [n] that no later index beat; where [<] is irreflexive and
    transitive on the distances met, no index at all is strictly nearer
    and no lower index is equally near. *)
Lemma nearest_loop (boxes : list (MBoundingBox D)) t (n : nat) :
  let st := fold_left (nearestStep boxes t) (seq 1 n) (0, distanceTo boxes t 0) in
  st.2 = distanceTo boxes t st.1 /\ st.1 <= n /\
  (forall j, st.1 < j <= n ->
     (distanceTo boxes t j <? distanceTo boxes t st.1)%S = false) /\
  ((forall i, i <= n -> (distanceTo boxes t i <? distanceTo boxes t i)%S = false) ->
   (forall i j l, i <= n -> j <= n -> l <= n ->
      (distanceTo boxes t i <? distanceTo boxes t j)%S = true ->
      (distanceTo boxes t j <? distanceTo boxes t l)%S = true ->
      (distanceTo boxes t i <? distanceTo boxes t l)%S = true) ->
   (forall j, j <= n -> (distanceTo boxes t j <? distanceTo boxes t st.1)%S = false) /\
   (forall j, j < st.1 -> distanceTo boxes t j <> distanceTo boxes t st.1)).
Proof.
  induction n as [|n IH].
  - simpl. split; [reflexivity|]. split; [lia|]. split; [intros j Hj; lia|].
    intros Hirr _. split; [|intros j Hj; lia].
    intros j Hj. replace j with 0 by lia. apply Hirr. lia.
  - cbv zeta in *. rewrite seq_S, fold_left_app.
    destruct (fold_left _ (seq 1 n) _) as [k dk].
    cbn [fold_left fst snd] in *.
    destruct IH as (-> & Hk & Hlater & Hlaws).
    unfold nearestStep; cbn [fst snd]. change (1 + n) with (S n).
    destruct (s_ltb (distanceTo boxes t (S n)) (distanceTo boxes t k)) eqn:Hlt; cbn [fst snd].
    + split; [reflexivity|]. split; [lia|]. split; [intros j Hj; lia|].
      intros Hirr Htrans.
      destruct Hlaws as [Hmin Hlow].
      { intros i Hi. apply Hirr. lia. }
      { intros i j l Hi Hj Hl. apply Htrans; lia. }
      split.
      * intros j Hj. destruct (decide (j = S n)) as [->|Hne]; [apply Hirr; lia|].
        destruct (s_ltb (distanceTo boxes t j) (distanceTo boxes t (S n))) eqn:Hj'; auto.
        rewrite <- (Hmin j) by lia. symmetry.
        apply (Htrans j (S n) k); auto; lia.
      * intros j Hj Heq. rewrite <- Heq in Hlt.
        rewrite Hmin in Hlt by lia. discriminate.
    + split; [reflexivity|]. split; [lia|]. split.
      * intros j Hj. destruct (decide (j = S n)) as [->|Hne]; [assumption|].
        apply Hlater. lia.
      * intros Hirr Htrans.
        destruct Hlaws as [Hmin Hlow].
        { intros i Hi. apply Hirr. lia. }
        { intros i j l Hi Hj Hl. apply Htrans; lia. }
        split; [|assumption].
        intros j Hj. destruct (decide (j = S n)) as [->|Hne]; [assumption|].
        apply Hmin. lia.
Qed.

Lemma nearestChild_spec (boxes : list (MBoundingBox D)) t :
  let k := nearestChild boxes t in
  k < 8 /\
  (forall j, k < j < 8 -> (distanceTo boxes t j <? distanceTo boxes t k)%S = false) /\
  ((forall i, i < 8 -> (distanceTo boxes t i <? distanceTo boxes t i)%S = false) ->
   (forall i j l, i < 8 -> j < 8 -> l < 8 ->
      (distanceTo boxes t i <? distanceTo boxes t j)%S = true ->
      (distanceTo boxes t j <? distanceTo boxes t l)%S = true ->
      (distanceTo boxes t i <? distanceTo boxes t l)%S = true) ->
   (forall j, j < 8 -> (distanceTo boxes t j <? distanceTo boxes t k)%S = false) /\
   (forall j, j < k -> distanceTo boxes t j <> distanceTo boxes t k)).
Proof.
  destruct (nearest_loop boxes t 7) as (_ & Hk & Hlater & Hlaws).
  unfold nearestChild. split; [lia|]. split.
  - intros j Hj. apply Hlater. lia.
  - intros Hirr Htrans. destruct Hlaws as [Hmin Hlow].
    + intros i Hi. apply Hirr. lia.
    + intros i j l Hi Hj Hl. apply Htrans; lia.
    + split; [|assumption]. intros j Hj. apply Hmin. lia.
Qed.

(** Where [splitNode] moves a triangle. *)
Lemma targetChild_spec (bb : MBoundingBox D) t :
  let boxes := octants bb in
  let k := targetChild boxes t in
  k < 8 /\
  ((boxContainsAllVertices (boxes !!! k) t = true /\
    forall j, j < k -> boxContainsAllVertices (boxes !!! j) t = false)
   \/
   ((forall j, j < 8 -> boxContainsAllVertices (boxes !!! j) t = false) /\
    (forall j, k < j < 8 -> (distanceTo boxes t j <? distanceTo boxes t k)%S = false) /\
    ((forall i, i < 8 -> (distanceTo boxes t i <? distanceTo boxes t i)%S = false) ->
     (forall i j l, i < 8 -> j < 8 -> l < 8 ->
        (distanceTo boxes t i <? distanceTo boxes t j)%S = true ->
        (distanceTo boxes t j <? distanceTo boxes t l)%S = true ->
        (distanceTo boxes t i <? distanceTo boxes t l)%S = true) ->
     (forall j, j < 8 -> (distanceTo boxes t j <? distanceTo boxes t k)%S = false) /\
     (forall j, j < k -> distanceTo boxes t j <> distanceTo boxes t k)))).
Proof.
  intros boxes k. subst k. unfold targetChild.
  destruct (firstContaining boxes t 0) as [i|] eqn:Hfirst.
  - apply firstContaining_Some in Hfirst as (_ & Hlt & Hhit & Hmiss).
    rewrite Nat.sub_0_r in *. split; [exact Hlt|]. left. auto.
  - pose proof (firstContaining_None _ _ _ Hfirst) as Hnone.
    destruct (nearestChild_spec boxes t) as (Hk & Hlater & Hlaws).
    split; [exact Hk|]. right. auto.
Qed.

(** After the loop over the triangles, child [i] holds what it held
    before followed by the triangles whose target is [i], in order. *)
Lemma moveToChild_loop (boxes : list (MBoundingBox D)) (ts : list (TriangleData D)) (i : nat) :
  forall cs : list (option (OctreeNode D)),
    fold_left (moveToChild boxes) ts cs !! i =
    fmap (fun child =>
            mkNode (boundingBox child) (children child)
                   (triangles child ++
                    List.filter (fun t => targetChild boxes t =? i) ts))
      <$> cs !! i.
Proof.
  induction ts as [|t ts IH]; intros cs; simpl.
  - destruct (cs !! i) as [[[bb ch tr]|]|]; simpl; rewrite ?app_nil_r; reflexivity.
  - rewrite IH. unfold moveToChild at 1.
    destruct (Nat.eqb_spec (targetChild boxes t) i) as [->|Hne].
    + rewrite list_lookup_alter_eq.
      destruct (cs !! i) as [[child|]|]; simpl; [|reflexivity..].
      now rewrite <- app_assoc.
    + rewrite list_lookup_alter_ne by assumption. reflexivity.
Qed.

Lemma splitNode_children_length n : length (children (splitNode n)) = 8.
Proof.
  unfold splitNode; simpl.
  assert (Hlen : forall ts cs,
    length (fold_left (moveToChild (octants (boundingBox n))) ts cs) = length cs).
  { induction ts as [|t ts IH]; intros cs; simpl; [reflexivity|].
    rewrite IH. unfold moveToChild. apply length_alter. }
  rewrite Hlen. reflexivity.
Qed.

Lemma splitNode_child n (i : nat) :
  i < 8 ->
  children (splitNode n) !! i =
  Some (Some (mkNode (octants (boundingBox n) !!! i) (replicate 8 None)
                     (List.filter (fun t => targetChild (octants (boundingBox n)) t =? i)
                                  (triangles n)))).
Proof.
  intros Hi. unfold splitNode; cbn [children]. rewrite moveToChild_loop.
  rewrite list_lookup_fmap.
  assert (Hbox : octants (boundingBox n) !! i = Some (octants (boundingBox n) !!! i)).
  { apply list_lookup_lookup_total_lt. exact Hi. }
  rewrite Hbox. reflexivity.
Qed.

(** What [splitNode] leaves, in terms of [targetChild] and [distanceTo]. *)
Lemma splitNode_result (node : OctreeNode D) :
  let boxes := octants (boundingBox node) in
  triangles (splitNode node) = [] /\
  length (children (splitNode node)) = 8 /\
  (forall i, i < 8 ->
     children (splitNode node) !! i =
     Some (Some (mkNode (boxes !!! i) (replicate 8 None)
                        (List.filter (fun t => targetChild boxes t =? i) (triangles node))))) /\
  (forall t,
     let k := targetChild boxes t in
     k < 8 /\
     ((boxContainsAllVertices (boxes !!! k) t = true /\
       forall j, j < k -> boxContainsAllVertices (boxes !!! j) t = false)
      \/
      ((forall j, j < 8 -> boxContainsAllVertices (boxes !!! j) t = false) /\
       (forall j, k < j < 8 -> (distanceTo boxes t j <? distanceTo boxes t k)%S = false) /\
       ((forall i, i < 8 -> (distanceTo boxes t i <? distanceTo boxes t i)%S = false) ->
        (forall i j l, i < 8 -> j < 8 -> l < 8 ->
           (distanceTo boxes t i <? distanceTo boxes t j)%S = true ->
           (distanceTo boxes t j <? distanceTo boxes t l)%S = true ->
           (distanceTo boxes t i <? distanceTo boxes t l)%S = true) ->
        (forall j, j < 8 -> (distanceTo boxes t j <? distanceTo boxes t k)%S = false) /\
        (forall j, j < k -> distanceTo boxes t j <> distanceTo boxes t k))))).
Proof.
  intros boxes. split; [reflexivity|]. split; [|split].
  - apply splitNode_children_length.
  - intros i Hi. now apply splitNode_child.
  - intros t. apply targetChild_spec.
Qed.

(** C3. After [splitNode] the node's own triangle list is empty and it
    has 8 children, child [i] a fresh leaf on box [i] holding exactly the
    triangles of the node whose target is [i] (so every triangle is in
    one child and in no other).  The target [k] of a triangle is the
    first box, in the order of the enumeration, that contains all three
    vertices.  When no box does, it is the box whose centre is nearest to
    the barycentre: with [dist j] the Euclidean distance from the centre
    of box [j] to the arithmetic mean of the three vertices, no box after
    [k] is strictly nearer than box [k]; and, [<] being irreflexive and
    transitive on the eight distances (as [<] on [double] is), no box at
    all is strictly nearer and no box of lower index is equally near. *)
Theorem splitNode_moves_each_triangle_to_one_child (node : OctreeNode D) :
  let boxes := octants (boundingBox node) in
  let holdsAll (b : MBoundingBox D) (t : TriangleData D) : bool :=
    contains b (v0 t) && contains b (v1 t) && contains b (v2 t) in
  let mean (t : TriangleData D) : MPoint D :=
    mkPoint ((px (v0 t) + px (v1 t) + px (v2 t)) / s_lit 3)%S
            ((py (v0 t) + py (v1 t) + py (v2 t)) / s_lit 3)%S
            ((pz (v0 t) + pz (v1 t) + pz (v2 t)) / s_lit 3)%S in
  let dist (t : TriangleData D) (j : nat) : D :=
    let c := center (boxes !!! j) in
    let dx := (px c - px (mean t))%S in
    let dy := (py c - py (mean t))%S in
    let dz := (pz c - pz (mean t))%S in
    s_sqrt (dx * dx + dy * dy + dz * dz)%S in
  triangles (splitNode node) = [] /\
  length (children (splitNode node)) = 8 /\
  (forall i, i < 8 ->
     children (splitNode node) !! i =
     Some (Some (mkNode (boxes !!! i) (replicate 8 None)
                        (List.filter (fun t => targetChild boxes t =? i) (triangles node))))) /\
  (forall t,
     let k := targetChild boxes t in
     k < 8 /\
     ((holdsAll (boxes !!! k) t = true /\
       forall j, j < k -> holdsAll (boxes !!! j) t = false)
      \/
      ((forall j, j < 8 -> holdsAll (boxes !!! j) t = false) /\
       (forall j, k < j < 8 -> (dist t j <? dist t k)%S = false) /\
       ((forall i, i < 8 -> (dist t i <? dist t i)%S = false) ->
        (forall i j l, i < 8 -> j < 8 -> l < 8 ->
           (dist t i <? dist t j)%S = true -> (dist t j <? dist t l)%S = true ->
           (dist t i <? dist t l)%S = true) ->
        (forall j, j < 8 -> (dist t j <? dist t k)%S = false) /\
        (forall j, j < k -> dist t j <> dist t k))))).
Proof. exact (splitNode_result node). Qed.

(** ** insertTriangle *)

Lemma framesFor_step (depth : Z) :
  (depth <= MAX_DEPTH)%Z -> framesFor depth = S (framesFor (depth + 1)).
Proof.
  intros Hle. unfold framesFor. f_equal.
  replace (MAX_DEPTH + 1 - depth)%Z with (Z.succ (MAX_DEPTH + 1 - (depth + 1)))%Z by lia.
  rewrite Z2Nat.inj_succ by lia. reflexivity.
Qed.

Lemma enter_bind {A} (depth : Z) (m : Run A) :
  (enter depth;; m) =
  match m with
  | OutOfFrames => OutOfFrames
  | Done r log => Done r (depth :: log)
  end.
Proof. reflexivity. Qed.

(** The body of an activation, with the recursive calls given as [visit]
    (on a child) and [retry] (on the node itself after the split). *)
Lemma insertTriangle_frames_S (frames : nat) n t (depth : Z) :
  insertTriangle_frames (S frames) n t depth =
  (enter depth;;
   if (depth >? MAX_DEPTH)%Z then mret (push_back n t)
   else if isLeaf n then
     if (Z.of_nat (length (triangles n)) <? MAX_TRIANGLES_PER_NODE)%Z
     then mret (push_back n t)
     else insertTriangle_frames frames (splitNode n) t (depth + 1)
   else
     '(children', inserted) ← insertIntoChildren
         (fun child => insertTriangle_frames frames child t (depth + 1))
         t (children n) false;
     mret (mkNode (boundingBox n) children'
                  (if inserted : bool then triangles n else triangles n ++ [t]))).
Proof. reflexivity. Qed.

Lemma insertIntoChildren_Done (visit : OctreeNode D -> Run (OctreeNode D))
    (g : OctreeNode D -> OctreeNode D) t (cs : list (option (OctreeNode D))) :
  (forall child, Some child ∈ cs -> exists log, visit child = Done (g child) log) ->
  forall inserted, exists log,
    insertIntoChildren visit t cs inserted =
    Done (childrenAfter g t cs, inserted || existsb (accepts t) cs) log.
Proof.
  induction cs as [|[child|] cs IH]; intros Hvisit inserted; simpl.
  - exists []. now rewrite orb_false_r.
  - destruct (boxContainsAnyVertices (boundingBox child) t) eqn:Hany.
    + destruct (Hvisit child) as [log1 ->]; [apply list_elem_of_here|].
      destruct (IH (fun c Hc => Hvisit c (list_elem_of_further _ _ _ Hc)) true)
        as [log2 Hrest].
      unfold mbind, run_bind at 1. unfold mbind, run_bind at 1. rewrite Hrest.
      simpl. rewrite orb_true_r. eauto.
    + destruct (IH (fun c Hc => Hvisit c (list_elem_of_further _ _ _ Hc)) inserted)
        as [log2 Hrest].
      unfold mbind, run_bind. rewrite Hrest. simpl. eauto.
  - destruct (IH (fun c Hc => Hvisit c (list_elem_of_further _ _ _ Hc)) inserted)
      as [log2 Hrest].
    unfold mbind, run_bind. rewrite Hrest. simpl. eauto.
Qed.

(** With more frames than [MAX_DEPTH + 1 - depth] the call returns. *)
Lemma insertTriangle_frames_returns (frames : nat) :
  forall n t (depth : Z),
    Z.to_nat (MAX_DEPTH + 1 - depth) < frames ->
    exists r log, insertTriangle_frames frames n t depth = Done r log.
Proof.
  induction frames as [|frames IH]; intros n t depth Hframes; [lia|].
  rewrite insertTriangle_frames_S, enter_bind.
  destruct (Z.gtb_spec depth MAX_DEPTH) as [Hgt|Hle]; [simpl; eauto|].
  assert (Hnext : Z.to_nat (MAX_DEPTH + 1 - (depth + 1)) < frames) by lia.
  destruct (isLeaf n).
  - destruct (_ <? _)%Z; [simpl; eauto|].
    destruct (IH (splitNode n) t (depth + 1)%Z Hnext) as (r & log & ->). eauto.
  - destruct (insertIntoChildren_Done
                (fun child => insertTriangle_frames frames child t (depth + 1))
                (fun child => default child
                   (result_of (insertTriangle_frames frames child t (depth + 1))))
                t (children n)) with (inserted := false) as [log Hloop].
    { intros child _. destruct (IH child t (depth + 1)%Z Hnext) as (r & log & ->).
      simpl. eauto. }
    unfold mbind, run_bind. rewrite Hloop. simpl. eauto.
Qed.

(** Frames beyond those a call needs change nothing. *)
Lemma insertIntoChildren_mono (visit visit' : OctreeNode D -> Run (OctreeNode D)) t
    (cs : list (option (OctreeNode D))) :
  (forall child r log, Some child ∈ cs ->
     visit child = Done r log -> visit' child = Done r log) ->
  forall inserted r log,
    insertIntoChildren visit t cs inserted = Done r log ->
    insertIntoChildren visit' t cs inserted = Done r log.
Proof.
  induction cs as [|[child|] cs IH]; intros Hvisit inserted r log; simpl; [auto|..].
  - destruct (boxContainsAnyVertices (boundingBox child) t).
    + unfold mbind, run_bind.
      destruct (visit child) as [|child' log1] eqn:Hchild; [discriminate|].
      rewrite (Hvisit child child' log1 (list_elem_of_here _ _) Hchild).
      destruct (insertIntoChildren visit t cs true) as [|[rest ins] log2] eqn:Hrest;
        [discriminate|].
      rewrite (IH (fun c r l Hc => Hvisit c r l (list_elem_of_further _ _ _ Hc))
                  _ _ _ Hrest). auto.
    + unfold mbind, run_bind.
      destruct (insertIntoChildren visit t cs inserted) as [|[rest ins] log2] eqn:Hrest;
        [discriminate|].
      rewrite (IH (fun c r l Hc => Hvisit c r l (list_elem_of_further _ _ _ Hc))
                  _ _ _ Hrest). auto.
  - unfold mbind, run_bind.
    destruct (insertIntoChildren visit t cs inserted) as [|[rest ins] log2] eqn:Hrest;
      [discriminate|].
    rewrite (IH (fun c r l Hc => Hvisit c r l (list_elem_of_further _ _ _ Hc))
                _ _ _ Hrest). auto.
Qed.

Lemma insertTriangle_frames_mono (frames : nat) :
  forall frames' n t (depth : Z) r log,
    frames <= frames' ->
    insertTriangle_frames frames n t depth = Done r log ->
    insertTriangle_frames frames' n t depth = Done r log.
Proof.
  induction frames as [|frames IH]; intros frames' n t depth r log Hle; [discriminate|].
  destruct frames' as [|frames']; [lia|].
  rewrite !insertTriangle_frames_S, !enter_bind.
  destruct (depth >? MAX_DEPTH)%Z; [auto|].
  destruct (isLeaf n).
  - destruct (_ <? _)%Z; [auto|].
    destruct (insertTriangle_frames frames _ _ _) as [|r1 log1] eqn:Hretry; [discriminate|].
    now rewrite (IH frames' _ _ _ _ _ ltac:(lia) Hretry).
  - unfold mbind, run_bind.
    destruct (insertIntoChildren _ t (children n) false) as [|[cs' ins] log1] eqn:Hloop;
      [discriminate|].
    rewrite (insertIntoChildren_mono _
               (fun child => insertTriangle_frames frames' child t (depth + 1))
               t (children n)
               (fun c r l _ Hc => IH frames' c t _ r l ltac:(lia) Hc) _ _ _ Hloop).
    auto.
Qed.

(** [insertTriangle] is the result of every run with enough frames. *)
Lemma insertTriangle_frames_result (frames : nat) n t (depth : Z) :
  Z.to_nat (MAX_DEPTH + 1 - depth) < frames ->
  exists log, insertTriangle_frames frames n t depth = Done (insertTriangle n t depth) log.
Proof.
  intros Hframes.
  destruct (insertTriangle_frames_returns (framesFor depth) n t depth) as (r & log & Hrun);
    [unfold framesFor; lia|].
  exists log. unfold insertTriangle. rewrite Hrun. simpl.
  apply (insertTriangle_frames_mono (framesFor depth)); [unfold framesFor; lia | assumption].
Qed.

(** The record of the loop over the children is the concatenation of the
    records of the calls it makes. *)
Lemma insertIntoChildren_record (Q : list Z -> Prop)
    (visit : OctreeNode D -> Run (OctreeNode D)) t (cs : list (option (OctreeNode D))) :
  (forall child r log, visit child = Done r log -> Q log) ->
  forall inserted r log,
    insertIntoChildren visit t cs inserted = Done r log ->
    exists calls, log = concat calls /\ Forall Q calls.
Proof.
  intros Hvisit.
  induction cs as [|[child|] cs IH]; intros inserted r log; simpl.
  - intros [= <- <-]. exists []. auto.
  - destruct (boxContainsAnyVertices (boundingBox child) t); unfold mbind, run_bind.
    + destruct (visit child) as [|child' log1] eqn:Hchild; [discriminate|].
      destruct (insertIntoChildren visit t cs true) as [|[rest ins] log2] eqn:Hrest;
        [discriminate|].
      simpl. intros [= <- <-].
      destruct (IH _ _ _ Hrest) as (calls & -> & Hcalls).
      exists (log1 :: calls). rewrite app_nil_r. split; [reflexivity|].
      constructor; eauto.
    + destruct (insertIntoChildren visit t cs inserted) as [|[rest ins] log2] eqn:Hrest;
        [discriminate|].
      simpl. intros [= <- <-]. rewrite app_nil_r. eauto.
  - unfold mbind, run_bind.
    destruct (insertIntoChildren visit t cs inserted) as [|[rest ins] log2] eqn:Hrest;
      [discriminate|].
    simpl. intros [= <- <-]. rewrite app_nil_r. eauto.
Qed.

Lemma recordOfCallAt_nested (depth : Z) (log : list Z) :
  (depth <= MAX_DEPTH)%Z -> recordOfCallAt (depth + 1) log ->
  head log = Some (depth + 1)%Z /\ Forall (fun d => (depth < d <= MAX_DEPTH + 1)%Z) log.
Proof.
  intros Hle (calls & -> & _ & _ & Hbound). split; [reflexivity|].
  constructor; [lia|].
  eapply Forall_impl; [exact Hbound|]. simpl. intros d Hd. lia.
Qed.

Lemma insertTriangle_frames_record (frames : nat) :
  forall n t (depth : Z) r log,
    insertTriangle_frames frames n t depth = Done r log -> recordOfCallAt depth log.
Proof.
  induction frames as [|frames IH]; intros n t depth r log; [discriminate|].
  rewrite insertTriangle_frames_S, enter_bind.
  destruct (Z.gtb_spec depth MAX_DEPTH) as [Hgt|Hle].
  { intros [= <- <-]. exists []. repeat split; auto. }
  destruct (isLeaf n).
  - destruct (_ <? _)%Z.
    { intros [= <- <-]. exists []. repeat split; auto. }
    destruct (insertTriangle_frames frames _ _ _) as [|r1 log1] eqn:Hretry; [discriminate|].
    intros [= <- <-].
    destruct (recordOfCallAt_nested depth log1 Hle (IH _ _ _ _ _ Hretry)) as [Hhead Hbound].
    exists [log1]. simpl. rewrite app_nil_r. repeat split; auto; lia.
  - unfold mbind, run_bind.
    destruct (insertIntoChildren _ t (children n) false) as [|[cs' ins] log1] eqn:Hloop;
      [discriminate|].
    simpl. intros [= <- <-]. rewrite app_nil_r.
    destruct (insertIntoChildren_record
                (fun l => head l = Some (depth + 1)%Z /\
                          Forall (fun d => (depth < d <= MAX_DEPTH + 1)%Z) l)
                _ t (children n)
                (fun c r l Hc => recordOfCallAt_nested depth l Hle (IH _ _ _ _ _ Hc))
                _ _ _ Hloop) as (calls & -> & Hcalls).
    exists calls. repeat split; [lia| |].
    + eapply Forall_impl; [exact Hcalls|]. simpl. tauto.
    + apply Forall_concat. eapply Forall_impl; [exact Hcalls|]. simpl. tauto.
Qed.

(** For a call at a depth that is not negative, as [build] makes it,
    [MAX_DEPTH + 2] frames are enough. *)
Lemma insertTriangle_frames_bound n t (depth : Z) :
  (0 <= depth)%Z ->
  result_of (insertTriangle_frames (S (Z.to_nat (MAX_DEPTH + 1))) n t depth)
  = Some (insertTriangle n t depth).
Proof.
  intros Hdepth.
  destruct (insertTriangle_frames_result (S (Z.to_nat (MAX_DEPTH + 1))) n t depth)
    as (log & ->); [unfold MAX_DEPTH in *; lia | reflexivity].
Qed.

(** C9. [insertTriangle] terminates for every node, triangle and starting
    depth: with more than [MAX_DEPTH + 1 - depth] stack frames the call
    returns its result.  Every call it makes directly is entered with
    [depth + 1], no activation below it has a depth argument above
    [MAX_DEPTH + 1], and a call with [depth > MAX_DEPTH] makes no call at
    all.  When the starting depth is not negative, the call and
    [MAX_DEPTH + 1] nested activations are enough. *)
Theorem insertTriangle_terminates n t (depth : Z) :
  (forall frames : nat,
     Z.to_nat (MAX_DEPTH + 1 - depth) < frames ->
     exists log,
       insertTriangle_frames frames n t depth = Done (insertTriangle n t depth) log /\
       recordOfCallAt depth log) /\
  ((0 <= depth)%Z ->
   exists log,
     insertTriangle_frames (S (Z.to_nat (MAX_DEPTH + 1))) n t depth
     = Done (insertTriangle n t depth) log).
Proof.
  split.
  - intros frames Hframes.
    destruct (insertTriangle_frames_result frames n t depth Hframes) as [log Hrun].
    exists log. split; [assumption|].
    eapply insertTriangle_frames_record, Hrun.
  - intros Hdepth. apply insertTriangle_frames_result. unfold MAX_DEPTH. lia.
Qed.

(** The four branches of [insertTriangle]. *)
Lemma insertTriangle_cases n t (depth : Z) :
  ((depth > MAX_DEPTH)%Z -> insertTriangle n t depth = push_back n t) /\
  ((depth <= MAX_DEPTH)%Z -> isLeaf n = true ->
   (Z.of_nat (length (triangles n)) < MAX_TRIANGLES_PER_NODE)%Z ->
   insertTriangle n t depth = push_back n t) /\
  ((depth <= MAX_DEPTH)%Z -> isLeaf n = true ->
   (MAX_TRIANGLES_PER_NODE <= Z.of_nat (length (triangles n)))%Z ->
   isLeaf (splitNode n) = false /\
   insertTriangle n t depth = insertTriangle (splitNode n) t (depth + 1)) /\
  ((depth <= MAX_DEPTH)%Z -> isLeaf n = false ->
   insertTriangle n t depth =
   mkNode (boundingBox n)
          (childrenAfter (fun child => insertTriangle child t (depth + 1)) t (children n))
          (if existsb (accepts t) (children n) then triangles n
           else triangles n ++ [t])).
Proof.
  split; [|split; [|split]].
  - intros Hgt. unfold insertTriangle, framesFor.
    rewrite insertTriangle_frames_S, enter_bind.
    destruct (Z.gtb_spec depth MAX_DEPTH); [reflexivity | lia].
  - intros Hle Hleaf Hroom. unfold insertTriangle, framesFor.
    rewrite insertTriangle_frames_S, enter_bind.
    destruct (Z.gtb_spec depth MAX_DEPTH); [lia|]. rewrite Hleaf.
    destruct (Z.ltb_spec (Z.of_nat (length (triangles n))) MAX_TRIANGLES_PER_NODE);
      [reflexivity | lia].
  - intros Hle Hleaf Hfull. split.
    { unfold splitNode, isLeaf. cbn [children].
      assert (Hsome : forall ts (cs : list (option (OctreeNode D))),
        forallb (fun c => match c with None => true | Some _ => false end) cs = false ->
        forallb (fun c => match c with None => true | Some _ => false end)
                (fold_left (moveToChild (octants (boundingBox n))) ts cs) = false).
      { induction ts as [|t' ts IH]; intros cs Hcs; simpl; [assumption|].
        apply IH. unfold moveToChild.
        generalize (targetChild (octants (boundingBox n)) t'). clear -Hcs.
        induction cs as [|[c|] cs IHcs]; intros [|k]; simpl in *; auto.
        now apply IHcs. }
      now apply Hsome. }
    unfold insertTriangle at 1.
    rewrite (framesFor_step depth Hle), insertTriangle_frames_S, enter_bind.
    destruct (Z.gtb_spec depth MAX_DEPTH); [lia|]. rewrite Hleaf.
    destruct (Z.ltb_spec (Z.of_nat (length (triangles n))) MAX_TRIANGLES_PER_NODE); [lia|].
    destruct (insertTriangle_frames_result (framesFor (depth + 1)) (splitNode n) t (depth + 1))
      as [log ->]; [unfold framesFor; lia | reflexivity].
  - intros Hle Hleaf. unfold insertTriangle at 1.
    rewrite (framesFor_step depth Hle), insertTriangle_frames_S, enter_bind.
    destruct (Z.gtb_spec depth MAX_DEPTH); [lia|]. rewrite Hleaf.
    destruct (insertIntoChildren_Done
                (fun child => insertTriangle_frames (framesFor (depth + 1)) child t (depth + 1))
                (fun child => insertTriangle child t (depth + 1))
                t (children n)) with (inserted := false) as [log Hloop].
    { intros child _. apply insertTriangle_frames_result. unfold framesFor. lia. }
    unfold mbind, run_bind. rewrite Hloop. reflexivity.
Qed.

(** C2. The four steps of Insert.  (1) Beyond [MAX_DEPTH] the triangle
    is appended to the node's own list: the list becomes the old one
    followed by the triangle, box and children stay.  (2) A leaf with
    fewer than [MAX_TRIANGLES_PER_NODE] triangles takes the triangle in
    the same way.  (3) A full leaf is split, it is then no leaf any more,
    and the insertion is retried on the same node at [depth + 1].  (4) In
    an interior node every child whose box contains at least one of the
    three vertices gets the triangle by a call at [depth + 1], the other
    children are left as they are, and the node itself takes the triangle
    exactly when no child accepted it. *)
Theorem insertTriangle_steps n t (depth : Z) :
  let holdsVertex (child : OctreeNode D) : bool :=
    contains (boundingBox child) (v0 t) || contains (boundingBox child) (v1 t)
    || contains (boundingBox child) (v2 t) in
  ((depth > MAX_DEPTH)%Z ->
   insertTriangle n t depth = mkNode (boundingBox n) (children n) (triangles n ++ [t])) /\
  ((depth <= MAX_DEPTH)%Z -> isLeaf n = true ->
   (Z.of_nat (length (triangles n)) < MAX_TRIANGLES_PER_NODE)%Z ->
   insertTriangle n t depth = mkNode (boundingBox n) (children n) (triangles n ++ [t])) /\
  ((depth <= MAX_DEPTH)%Z -> isLeaf n = true ->
   (MAX_TRIANGLES_PER_NODE <= Z.of_nat (length (triangles n)))%Z ->
   isLeaf (splitNode n) = false /\
   insertTriangle n t depth = insertTriangle (splitNode n) t (depth + 1)) /\
  ((depth <= MAX_DEPTH)%Z -> isLeaf n = false ->
   insertTriangle n t depth =
   mkNode (boundingBox n)
          (map (fun c : option (OctreeNode D) =>
                  match c with
                  | Some child =>
                      Some (if holdsVertex child
                            then insertTriangle child t (depth + 1) else child)
                  | None => None
                  end) (children n))
          (if existsb (fun c : option (OctreeNode D) =>
                         match c with
                         | Some child => holdsVertex child
                         | None => false
                         end) (children n)
           then triangles n
           else triangles n ++ [t])).
Proof. exact (insertTriangle_cases n t depth). Qed.

(** ** The trees of [build] *)

Lemma eightSlots_unfold n :
  eightSlots n <->
  length (children n) = 8 /\ forall child, Some child ∈ children n -> eightSlots child.
Proof.
  destruct n as [bb cs ts]; simpl.
  assert (Hall :
    fold_right (fun c rest => match c with
                              | Some child => eightSlots child /\ rest
                              | None => rest
                              end) True cs
    <-> forall child, Some child ∈ cs -> eightSlots child).
  { induction cs as [|[c|] cs IH]; simpl.
    - split; [intros _ child Hin; inversion Hin | auto].
    - rewrite IH. split.
      + intros [Hc Hcs] child [[= ->]|Hin]%elem_of_cons; auto.
      + intros Hall. split; [apply Hall, list_elem_of_here|].
        intros child Hin. now apply Hall, list_elem_of_further.
    - rewrite IH. split.
      + intros Hcs child [?|Hin]%elem_of_cons; [discriminate | auto].
      + intros Hall child Hin. now apply Hall, list_elem_of_further. }
  now rewrite Hall.
Qed.

Lemma eightSlots_newNode (bb : MBoundingBox D) : eightSlots (newNode bb).
Proof. simpl. auto. Qed.

Lemma eightSlots_push_back n t : eightSlots n -> eightSlots (push_back n t).
Proof. rewrite !eightSlots_unfold. auto. Qed.

(** The children [splitNode] makes are fresh leaves. *)
Lemma eightSlots_splitNode n : eightSlots (splitNode n).
Proof.
  apply eightSlots_unfold. split; [apply splitNode_children_length|].
  intros child (i & Hi)%list_elem_of_lookup.
  assert (Hlt : i < 8).
  { rewrite <- (splitNode_children_length n). eapply lookup_lt_Some, Hi. }
  rewrite (splitNode_child n i Hlt) in Hi. injection Hi as <-.
  simpl. auto.
Qed.

Lemma insertIntoChildren_eightSlots (visit : OctreeNode D -> Run (OctreeNode D)) t
    (cs : list (option (OctreeNode D))) :
  (forall child r log, Some child ∈ cs -> visit child = Done r log -> eightSlots r) ->
  (forall child, Some child ∈ cs -> eightSlots child) ->
  forall inserted r log,
    insertIntoChildren visit t cs inserted = Done r log ->
    length r.1 = length cs /\ forall child, Some child ∈ r.1 -> eightSlots child.
Proof.
  induction cs as [|[c|] cs IH]; intros Hvisit Hcs inserted r log; simpl.
  - intros [= <- <-]. simpl. split; [reflexivity|]. intros child Hin. inversion Hin.
  - destruct (boxContainsAnyVertices (boundingBox c) t); unfold mbind, run_bind.
    + destruct (visit c) as [|c' log1] eqn:Hc; [discriminate|].
      destruct (insertIntoChildren visit t cs true) as [|[rest ins] log2] eqn:Hrest;
        [discriminate|].
      simpl. intros [= <- <-]. simpl.
      destruct (IH (fun ch r l Hin => Hvisit ch r l (list_elem_of_further _ _ _ Hin))
                   (fun ch Hin => Hcs ch (list_elem_of_further _ _ _ Hin))
                   _ _ _ Hrest) as [Hlen Hall].
      split; [simpl in Hlen; lia|].
      intros child [[= ->]|Hin]%elem_of_cons; [|now apply Hall].
      eapply Hvisit; [apply list_elem_of_here | exact Hc].
    + destruct (insertIntoChildren visit t cs inserted) as [|[rest ins] log2] eqn:Hrest;
        [discriminate|].
      simpl. intros [= <- <-]. simpl.
      destruct (IH (fun ch r l Hin => Hvisit ch r l (list_elem_of_further _ _ _ Hin))
                   (fun ch Hin => Hcs ch (list_elem_of_further _ _ _ Hin))
                   _ _ _ Hrest) as [Hlen Hall].
      split; [simpl in Hlen; lia|].
      intros child [[= ->]|Hin]%elem_of_cons; [|now apply Hall].
      apply Hcs, list_elem_of_here.
  - unfold mbind, run_bind.
    destruct (insertIntoChildren visit t cs inserted) as [|[rest ins] log2] eqn:Hrest;
      [discriminate|].
    simpl. intros [= <- <-]. simpl.
    destruct (IH (fun ch r l Hin => Hvisit ch r l (list_elem_of_further _ _ _ Hin))
                 (fun ch Hin => Hcs ch (list_elem_of_further _ _ _ Hin))
                 _ _ _ Hrest) as [Hlen Hall].
    split; [simpl in Hlen; lia|].
    intros child [?|Hin]%elem_of_cons; [discriminate | now apply Hall].
Qed.

Lemma insertTriangle_frames_eightSlots (frames : nat) :
  forall n t (depth : Z) r log,
    eightSlots n ->
    insertTriangle_frames frames n t depth = Done r log -> eightSlots r.
Proof.
  induction frames as [|frames IH]; intros n t depth r log Hn; [discriminate|].
  rewrite insertTriangle_frames_S, enter_bind.
  destruct (depth >? MAX_DEPTH)%Z.
  { intros [= <- <-]. now apply eightSlots_push_back. }
  destruct (isLeaf n).
  - destruct (_ <? _)%Z.
    { intros [= <- <-]. now apply eightSlots_push_back. }
    destruct (insertTriangle_frames frames _ _ _) as [|r1 log1] eqn:Hretry; [discriminate|].
    intros [= <- <-]. eapply IH; [apply eightSlots_splitNode | exact Hretry].
  - unfold mbind, run_bind.
    destruct (insertIntoChildren _ t (children n) false) as [|[cs' ins] log1] eqn:Hloop;
      [discriminate|].
    simpl. intros [= <- <-].
    apply eightSlots_unfold in Hn as [Hlen Hchildren].
    destruct (insertIntoChildren_eightSlots _ t (children n)
                (fun ch r l Hin Hrun => IH ch t _ r l (Hchildren ch Hin) Hrun)
                Hchildren _ _ _ Hloop) as [Hlen' Hall].
    apply eightSlots_unfold. simpl in *. split; [lia | assumption].
Qed.

Lemma insertTriangle_eightSlots n t (depth : Z) :
  eightSlots n -> eightSlots (insertTriangle n t depth).
Proof.
  intros Hn.
  destruct (insertTriangle_frames_result (framesFor depth) n t depth) as [log Hrun];
    [unfold framesFor; lia|].
  eapply insertTriangle_frames_eightSlots; eauto.
Qed.

(** Every node of a tree made by [build] has its 8 child slots, which is
    what lets the loops [for (i = 0; i < 8; ++i)] run over [children]. *)
Lemma build_eightSlots (mesh : list (Polygon D)) (bbox : MBoundingBox D)
    (offsetMatrix : MMatrix D) :
  eightSlots (build mesh bbox offsetMatrix).
Proof.
  unfold build.
  generalize (trianglesOfMesh mesh offsetMatrix) as ts.
  generalize (eightSlots_newNode bbox). generalize (newNode bbox) as n.
  intros n Hn ts. revert n Hn.
  induction ts as [|t ts IH]; intros n Hn; simpl; [assumption|].
  apply IH. now apply insertTriangle_eightSlots.
Qed.

End Properties.

(** * Further properties of the kernel and of the draw override *)

Section Further.
Context {D : Type} `{Scalar D} {TP : TrianglePredicate D} {BP : BoxTrianglePredicate D}.
Implicit Types (a b n : OctreeNode D) (t : TriangleData D).

(** ** What [splitNode] and [insertTriangle] keep *)

Lemma nearestChild_lt (boxes : list (MBoundingBox D)) t : nearestChild boxes t < 8.
Proof.
  unfold nearestChild.
  assert (Hloop : forall (l : list nat) (st : nat * D),
    st.1 < 8 -> Forall (fun i => i < 8) l ->
    (fold_left (nearestStep boxes t) l st).1 < 8).
  { induction l as [|i l IH]; intros st Hst Hl; simpl; [assumption|].
    inversion Hl; subst. apply IH; [|assumption].
    unfold nearestStep. destruct (s_ltb _ _); simpl; assumption. }
  apply Hloop; simpl; [lia|].
  repeat constructor; lia.
Qed.

Lemma targetChild_lt (bb : MBoundingBox D) t : targetChild (octants bb) t < 8.
Proof.
  unfold targetChild.
  destruct (firstContaining (octants bb) t 0) as [i|] eqn:Hfirst.
  - apply firstContaining_Some in Hfirst as (_ & Hlt & _).
    rewrite Nat.sub_0_r in Hlt. exact Hlt.
  - apply nearestChild_lt.
Qed.

(** The children of a split node, all at once. *)
Lemma splitNode_children n :
  children (splitNode n) =
  map (fun i => Some (mkNode (octants (boundingBox n) !!! i) (replicate 8 None)
                             (List.filter
                                (fun t => targetChild (octants (boundingBox n)) t =? i)
                                (triangles n))))
      (seq 0 8).
Proof.
  apply list_eq. intros i.
  destruct (decide (i < 8)) as [Hi|Hi].
  - rewrite (splitNode_child n i Hi), list_lookup_fmap, lookup_seq_lt by assumption.
    reflexivity.
  - rewrite !lookup_ge_None_2; [reflexivity | |].
    + rewrite length_map, length_seq. lia.
    + rewrite splitNode_children_length. lia.
Qed.

Lemma flat_map_insert_once {A} (x : A) (j : nat) (F : nat -> list A) (l : list nat) :
  NoDup l ->
  flat_map (fun i => if j =? i then x :: F i else F i) l
  ≡ₚ (if decide (j ∈ l) then [x] else []) ++ flat_map F l.
Proof.
  induction l as [|i l IH]; intros Hnd; simpl.
  - destruct (decide (j ∈ [])) as [Hin|_]; [inversion Hin | reflexivity].
  - apply NoDup_cons in Hnd as [Hi Hnd]. rewrite (IH Hnd).
    destruct (Nat.eqb_spec j i) as [->|Hne].
    + destruct (decide (i ∈ i :: l)) as [_|Hout];
        [|exfalso; apply Hout, list_elem_of_here].
      destruct (decide (i ∈ l)); [contradiction|]. reflexivity.
    + destruct (decide (j ∈ i :: l)) as [Hin|Hout], (decide (j ∈ l)) as [Hin'|Hout'];
        simpl; try reflexivity.
      * symmetry. apply Permutation_middle.
      * apply elem_of_cons in Hin as [?|?]; contradiction.
      * exfalso. apply Hout. now apply list_elem_of_further.
Qed.

(** Sorting a list into [k] bins by an index below [k] rearranges it. *)
Lemma bins_rearrange {A} (f : A -> nat) (k : nat) (l : list A) :
  (forall x, x ∈ l -> f x < k) ->
  flat_map (fun i => List.filter (fun x => f x =? i) l) (seq 0 k) ≡ₚ l.
Proof.
  induction l as [|x l IH]; intros Hf; simpl.
  - induction (seq 0 k) as [|i js IHjs]; simpl; auto.
  - rewrite (flat_map_insert_once x (f x) (fun i => List.filter (fun y => f y =? i) l))
      by apply NoDup_seq.
    destruct (decide (f x ∈ seq 0 k)) as [_|Hout].
    + simpl. constructor. apply IH. intros y Hy. now apply Hf, list_elem_of_further.
    + exfalso. apply Hout, elem_of_seq. pose proof (Hf x (list_elem_of_here _ _)). lia.
Qed.

Lemma storedTriangles_unfold n :
  storedTriangles n =
  triangles n ++ flat_map (fun c => match c with
                                    | Some child => storedTriangles child
                                    | None => []
                                    end) (children n).
Proof. destruct n; reflexivity. Qed.

Lemma storedTriangles_leaf n : isLeaf n = true -> storedTriangles n = triangles n.
Proof.
  intros Hleaf. rewrite storedTriangles_unfold.
  pose proof (isLeaf_all_None n Hleaf) as Hnone.
  assert (Hnil : forall cs : list (option (OctreeNode D)),
    (forall c, c ∈ cs -> c = None) ->
    flat_map (fun c => match c with
                       | Some child => storedTriangles child
                       | None => []
                       end) cs = []).
  { induction cs as [|c cs IH]; intros Hcs; simpl; [reflexivity|].
    rewrite (Hcs c (list_elem_of_here _ _)), IH; [reflexivity|].
    intros c' Hc'. now apply Hcs, list_elem_of_further. }
  now rewrite Hnil, app_nil_r.
Qed.

Lemma storedTriangles_splitNode n : storedTriangles (splitNode n) ≡ₚ triangles n.
Proof.
  rewrite storedTriangles_unfold, splitNode_children, flat_map_map.
  change (triangles (splitNode n)) with (@nil (TriangleData D)). rewrite app_nil_l.
  rewrite (flat_map_ext_elem _
             (fun i => List.filter
                         (fun t => targetChild (octants (boundingBox n)) t =? i)
                         (triangles n))).
  - apply (bins_rearrange (targetChild (octants (boundingBox n))) 8).
    intros t _. apply targetChild_lt.
  - intros i _. simpl. now rewrite app_nil_r.
Qed.

(** X1. [splitNode] neither loses nor copies a triangle: what the split
    node stores afterwards (all of it in its 8 children) is a
    rearrangement of the triangles it held. *)
Theorem splitNode_keeps_every_triangle n :
  triangles (splitNode n) = [] /\
  storedTriangles (splitNode n) ≡ₚ triangles n /\
  (forall child, Some child ∈ children (splitNode n) -> isLeaf child = true).
Proof.
  split; [reflexivity|]. split; [apply storedTriangles_splitNode|].
  intros child Hin. rewrite splitNode_children in Hin.
  apply list_elem_of_fmap in Hin as (i & [= ->] & _). reflexivity.
Qed.

(** The body of [insertTriangle], once. *)
Lemma insertTriangle_eq n t (depth : Z) :
  insertTriangle n t depth =
  if (depth >? MAX_DEPTH)%Z then push_back n t
  else if isLeaf n then
    if (Z.of_nat (length (triangles n)) <? MAX_TRIANGLES_PER_NODE)%Z then push_back n t
    else insertTriangle (splitNode n) t (depth + 1)
  else
    mkNode (boundingBox n)
           (childrenAfter (fun child => insertTriangle child t (depth + 1)) t (children n))
           (if existsb (accepts t) (children n) then triangles n else triangles n ++ [t]).
Proof.
  destruct (Z.gtb_spec depth MAX_DEPTH) as [Hgt|Hle].
  { unfold insertTriangle, framesFor. rewrite insertTriangle_frames_S, enter_bind.
    destruct (Z.gtb_spec depth MAX_DEPTH); [reflexivity | lia]. }
  unfold insertTriangle at 1.
  rewrite (framesFor_step depth Hle), insertTriangle_frames_S, enter_bind.
  destruct (Z.gtb_spec depth MAX_DEPTH); [lia|].
  destruct (isLeaf n).
  - destruct (_ <? _)%Z; [reflexivity|].
    destruct (insertTriangle_frames_result (framesFor (depth + 1)) (splitNode n) t (depth + 1))
      as [log ->]; [unfold framesFor; lia | reflexivity].
  - destruct (insertIntoChildren_Done
                (fun child => insertTriangle_frames (framesFor (depth + 1)) child t (depth + 1))
                (fun child => insertTriangle child t (depth + 1))
                t (children n)) with (inserted := false) as [log Hloop].
    { intros child _. apply insertTriangle_frames_result. unfold framesFor. lia. }
    unfold mbind, run_bind. rewrite Hloop. reflexivity.
Qed.

(** Induction along the calls of [insertTriangle]. *)
Lemma insertTriangle_ind t (P : OctreeNode D -> Z -> OctreeNode D -> Prop) :
  (forall n depth, (depth > MAX_DEPTH)%Z -> P n depth (push_back n t)) ->
  (forall n depth, (depth <= MAX_DEPTH)%Z -> isLeaf n = true ->
     (Z.of_nat (length (triangles n)) < MAX_TRIANGLES_PER_NODE)%Z ->
     P n depth (push_back n t)) ->
  (forall n depth, (depth <= MAX_DEPTH)%Z -> isLeaf n = true ->
     (MAX_TRIANGLES_PER_NODE <= Z.of_nat (length (triangles n)))%Z ->
     P (splitNode n) (depth + 1)%Z (insertTriangle (splitNode n) t (depth + 1)) ->
     P n depth (insertTriangle (splitNode n) t (depth + 1))) ->
  (forall n depth, (depth <= MAX_DEPTH)%Z -> isLeaf n = false ->
     (forall child, Some child ∈ children n ->
        P child (depth + 1)%Z (insertTriangle child t (depth + 1))) ->
     P n depth
       (mkNode (boundingBox n)
          (childrenAfter (fun child => insertTriangle child t (depth + 1)) t (children n))
          (if existsb (accepts t) (children n) then triangles n
           else triangles n ++ [t]))) ->
  forall n depth, P n depth (insertTriangle n t depth).
Proof.
  intros Hbeyond Hroom Hfull Hinterior.
  assert (Hall : forall (k : nat) n depth,
    Z.to_nat (MAX_DEPTH + 1 - depth) <= k -> P n depth (insertTriangle n t depth)).
  { induction k as [|k IH]; intros n depth Hk; rewrite insertTriangle_eq;
      destruct (Z.gtb_spec depth MAX_DEPTH) as [Hgt|Hle]; try (apply Hbeyond; lia);
      try lia.
    destruct (isLeaf n) eqn:Hleaf.
    - destruct (Z.ltb_spec (Z.of_nat (length (triangles n))) MAX_TRIANGLES_PER_NODE).
      + now apply Hroom.
      + apply Hfull; auto. apply IH. lia.
    - apply Hinterior; auto. intros child _. apply IH. lia. }
  intros n depth. apply (Hall (Z.to_nat (MAX_DEPTH + 1 - depth))). lia.
Qed.

Lemma elem_of_storedTriangles n s :
  s ∈ storedTriangles n <->
  s ∈ triangles n \/ exists child, Some child ∈ children n /\ s ∈ storedTriangles child.
Proof.
  rewrite storedTriangles_unfold, elem_of_app, elem_of_flat_map.
  split; intros [?|Hc]; auto; right.
  - destruct Hc as ([child|] & Hin & Hs); [eauto | inversion Hs].
  - destruct Hc as (child & Hin & Hs). exists (Some child). auto.
Qed.

Lemma elem_of_childrenAfter (g : OctreeNode D -> OctreeNode D) t
    (cs : list (option (OctreeNode D))) (child' : OctreeNode D) :
  Some child' ∈ childrenAfter g t cs <->
  exists child, Some child ∈ cs /\
    child' = if boxContainsAnyVertices (boundingBox child) t then g child else child.
Proof.
  unfold childrenAfter. rewrite list_elem_of_fmap. split.
  - intros ([child|] & Heq & Hin); [|discriminate]. injection Heq as ->. eauto.
  - intros (child & Hin & ->). exists (Some child). auto.
Qed.

Lemma existsb_accepts t (cs : list (option (OctreeNode D))) :
  existsb (accepts t) cs = true <->
  exists child, Some child ∈ cs /\ boxContainsAnyVertices (boundingBox child) t = true.
Proof.
  rewrite existsb_exists. split.
  - intros ([child|] & Hin%list_elem_of_In & Hacc); [eauto | discriminate].
  - intros (child & Hin & Hacc). exists (Some child). split; [|assumption].
    now apply list_elem_of_In.
Qed.

Lemma storedTriangles_insertTriangle t :
  forall n depth s,
    s ∈ storedTriangles (insertTriangle n t depth) <-> s = t \/ s ∈ storedTriangles n.
Proof.
  apply (insertTriangle_ind t (fun n depth r =>
    forall s, s ∈ storedTriangles r <-> s = t \/ s ∈ storedTriangles n)).
  - intros n depth _ s. rewrite !elem_of_storedTriangles. simpl.
    rewrite elem_of_app, list_elem_of_singleton. tauto.
  - intros n depth _ _ _ s. rewrite !elem_of_storedTriangles. simpl.
    rewrite elem_of_app, list_elem_of_singleton. tauto.
  - intros n depth _ Hleaf _ IH s. rewrite IH.
    rewrite (storedTriangles_leaf n Hleaf), storedTriangles_splitNode. reflexivity.
  - intros n depth _ _ IH s.
    rewrite (elem_of_storedTriangles (mkNode _ _ _)), (elem_of_storedTriangles n).
    cbn [triangles children]. split.
    + intros [Hs|(child' & (child & Hin & ->)%elem_of_childrenAfter & Hs)].
      * destruct (existsb _ _); [auto|].
        apply elem_of_app in Hs as [?|Hs]; auto.
        apply list_elem_of_singleton in Hs as ->. auto.
      * destruct (boxContainsAnyVertices _ _); [|eauto].
        apply IH in Hs as [?|?]; eauto.
    + intros [->|[Hs|(child & Hin & Hs)]].
      * destruct (existsb (accepts t) (children n)) eqn:Hex.
        -- apply existsb_accepts in Hex as (child & Hin & Hacc). right.
           exists (insertTriangle child t (depth + 1)). split.
           ++ apply elem_of_childrenAfter. exists child. now rewrite Hacc.
           ++ apply IH; auto.
        -- left. apply elem_of_app. right. apply list_elem_of_here.
      * left. destruct (existsb _ _); [assumption | apply elem_of_app; auto].
      * right.
        exists (if boxContainsAnyVertices (boundingBox child) t
                then insertTriangle child t (depth + 1) else child).
        split; [apply elem_of_childrenAfter; eauto|].
        destruct (boxContainsAnyVertices _ _); [apply IH|]; auto.
Qed.

(** X2. Insertion keeps what the tree stores and adds the triangle: after
    [insertTriangle] a triangle is stored somewhere in the tree exactly
    when it is the inserted one or was stored before, whatever the depth
    and the splits on the way. *)
Theorem insertTriangle_stores_the_triangle n t (depth : Z) :
  t ∈ storedTriangles (insertTriangle n t depth) /\
  forall s, s ∈ storedTriangles (insertTriangle n t depth) <->
            s = t \/ s ∈ storedTriangles n.
Proof.
  split; [apply storedTriangles_insertTriangle; auto|].
  apply storedTriangles_insertTriangle.
Qed.

(** ** The trees [build] makes *)

Lemma boundingBox_insertTriangle t :
  forall n depth, boundingBox (insertTriangle n t depth) = boundingBox n.
Proof.
  apply (insertTriangle_ind t (fun n depth r => boundingBox r = boundingBox n)); auto.
Qed.

Lemma wellShaped_unfold n :
  wellShaped n <-> fanOut n /\ forall child, Some child ∈ children n -> wellShaped child.
Proof.
  destruct n as [bb cs ts]; simpl.
  assert (Hall :
    fold_right (fun c rest => match c with
                              | Some child => wellShaped child /\ rest
                              | None => rest
                              end) True cs
    <-> forall child, Some child ∈ cs -> wellShaped child).
  { induction cs as [|[c|] cs IH]; simpl.
    - split; [intros _ child Hin; inversion Hin | auto].
    - rewrite IH. split.
      + intros [Hc Hcs] child [[= ->]|Hin]%elem_of_cons; auto.
      + intros Hall. split; [apply Hall, list_elem_of_here|].
        intros child Hin. now apply Hall, list_elem_of_further.
    - rewrite IH. split.
      + intros Hcs child [?|Hin]%elem_of_cons; [discriminate | auto].
      + intros Hall child Hin. now apply Hall, list_elem_of_further. }
  now rewrite Hall.
Qed.

Lemma no_child_among_nulls (k : nat) (c : OctreeNode D) :
  Some c ∈ replicate k (@None (OctreeNode D)) -> False.
Proof. intros [? _]%elem_of_replicate. discriminate. Qed.

Lemma wellShaped_push_back n t : wellShaped n -> wellShaped (push_back n t).
Proof. rewrite !wellShaped_unfold. auto. Qed.

Lemma wellShaped_splitNode n : wellShaped (splitNode n).
Proof.
  apply wellShaped_unfold. split.
  - right. rewrite splitNode_children. reflexivity.
  - intros child Hin. rewrite splitNode_children in Hin.
    apply list_elem_of_fmap in Hin as (i & [= ->] & _).
    apply wellShaped_unfold. split; [now left|].
    intros c Hc. now apply (no_child_among_nulls 8) in Hc.
Qed.

Lemma childrenAfter_boxes (g : OctreeNode D -> OctreeNode D) t
    (cs : list (option (OctreeNode D))) :
  (forall child, Some child ∈ cs -> boundingBox (g child) = boundingBox child) ->
  map (option_map boundingBox) (childrenAfter g t cs) = map (option_map boundingBox) cs.
Proof.
  unfold childrenAfter. induction cs as [|[c|] cs IH]; intros Hg; simpl; [reflexivity|..].
  - rewrite IH by (intros; now apply Hg, list_elem_of_further).
    destruct (boxContainsAnyVertices _ _); [|reflexivity].
    now rewrite Hg by apply list_elem_of_here.
  - now rewrite IH by (intros; now apply Hg, list_elem_of_further).
Qed.

Lemma childrenAfter_all_None (g : OctreeNode D -> OctreeNode D) t (k : nat) :
  childrenAfter g t (replicate k None) = replicate k None.
Proof. induction k as [|k IH]; simpl; [reflexivity|]. now f_equal. Qed.

Lemma wellShaped_insertTriangle t :
  forall n depth, wellShaped n -> wellShaped (insertTriangle n t depth).
Proof.
  apply (insertTriangle_ind t (fun n depth r => wellShaped n -> wellShaped r)).
  - intros n depth _. apply wellShaped_push_back.
  - intros n depth _ _ _. apply wellShaped_push_back.
  - intros n depth _ _ _ IH _. apply IH, wellShaped_splitNode.
  - intros n depth _ _ IH [Hfan Hchildren]%wellShaped_unfold.
    apply wellShaped_unfold. unfold fanOut in *. cbn [children boundingBox]. split.
    + destruct Hfan as [Hnone|Hboxes]; [left | right].
      * rewrite Hnone. apply childrenAfter_all_None.
      * rewrite childrenAfter_boxes; [assumption|].
        intros child _. apply boundingBox_insertTriangle.
    + intros child' (child & Hin & ->)%elem_of_childrenAfter.
      destruct (boxContainsAnyVertices _ _); auto.
Qed.

Lemma wellShaped_nodes :
  forall n, wellShaped n -> forall x, x ∈ nodesOf n -> fanOut x.
Proof.
  induction n as [n IH] using OctreeNode_children_ind.
  intros [Hfan Hchildren]%wellShaped_unfold x Hx.
  destruct n as [bb cs ts]; simpl in Hx.
  apply elem_of_cons in Hx as [->|Hx]; [assumption|].
  apply elem_of_flat_map in Hx as ([child|] & Hin & Hx); [|inversion Hx].
  eapply IH; eauto.
Qed.

Lemma fold_insertTriangle_inv (P : OctreeNode D -> Prop) (ts : list (TriangleData D)) :
  (forall n t, P n -> P (insertTriangle n t 0)) ->
  forall n, P n -> P (fold_left (fun root triangle => insertTriangle root triangle 0) ts n).
Proof.
  intros Hstep. induction ts as [|t ts IH]; intros n Hn; simpl; [assumption|].
  apply IH, Hstep, Hn.
Qed.

(** X3. In a tree made by [build] the root has the box given to [build],
    and every node has either no child at all or 8 children whose boxes
    are, in order, the octants of its own box: there is never a partial
    fan-out. *)
Theorem build_makes_an_octree (mesh : list (Polygon D)) (bbox : MBoundingBox D)
    (offsetMatrix : MMatrix D) :
  boundingBox (build mesh bbox offsetMatrix) = bbox /\
  forall x, x ∈ nodesOf (build mesh bbox offsetMatrix) ->
    children x = replicate 8 None \/
    map (option_map boundingBox) (children x) = map Some (octants (boundingBox x)).
Proof.
  unfold build. split.
  - apply (fold_insertTriangle_inv (fun n => boundingBox n = bbox)); [|reflexivity].
    intros n t Hn. now rewrite boundingBox_insertTriangle.
  - apply wellShaped_nodes.
    apply (fold_insertTriangle_inv wellShaped).
    + intros n t. apply wellShaped_insertTriangle.
    + apply wellShaped_unfold. split; [now left|].
      intros c Hc. now apply (no_child_among_nulls 8) in Hc.
Qed.

Lemma storedTriangles_build (mesh : list (Polygon D)) (bbox : MBoundingBox D)
    (offsetMatrix : MMatrix D) (s : TriangleData D) :
  s ∈ storedTriangles (build mesh bbox offsetMatrix) <->
  s ∈ trianglesOfMesh mesh offsetMatrix.
Proof.
  unfold build. generalize (trianglesOfMesh mesh offsetMatrix) as ts. intros ts.
  assert (Hgen : forall n,
    s ∈ storedTriangles (fold_left (fun root triangle => insertTriangle root triangle 0) ts n)
    <-> s ∈ ts \/ s ∈ storedTriangles n).
  { induction ts as [|t ts IH]; intros n; simpl.
    - split; [auto | intros [Hin|?]; [inversion Hin | assumption]].
    - rewrite IH, storedTriangles_insertTriangle, elem_of_cons. tauto. }
  rewrite Hgen. split; [intros [?|Hin]; [assumption | inversion Hin] | auto].
Qed.

(** X4. [build] stores exactly the triangles of the mesh: a triangle is
    stored in some node of the tree if and only if it is one of the
    transformed triangles of a polygon of the mesh.  None is lost by a
    split or at the depth limit, none is invented. *)
Theorem build_stores_the_mesh (mesh : list (Polygon D)) (bbox : MBoundingBox D)
    (offsetMatrix : MMatrix D) :
  forall s, s ∈ storedTriangles (build mesh bbox offsetMatrix) <->
            s ∈ trianglesOfMesh mesh offsetMatrix.
Proof. intros s. apply storedTriangles_build. Qed.

Lemma insertTriangle_roomy_leaf (bb : MBoundingBox D) (pre : list (TriangleData D)) t :
  (Z.of_nat (length pre) < MAX_TRIANGLES_PER_NODE)%Z ->
  insertTriangle (mkNode bb (replicate 8 None) pre) t 0 =
  mkNode bb (replicate 8 None) (pre ++ [t]).
Proof.
  intros Hroom. rewrite insertTriangle_eq.
  change (0 >? MAX_DEPTH)%Z with false.
  change (isLeaf (mkNode bb (replicate 8 None) pre)) with true.
  cbn [triangles].
  destruct (Z.ltb_spec (Z.of_nat (length pre)) MAX_TRIANGLES_PER_NODE); [reflexivity | lia].
Qed.

Lemma build_small (mesh : list (Polygon D)) (bbox : MBoundingBox D)
    (offsetMatrix : MMatrix D) :
  (Z.of_nat (length (trianglesOfMesh mesh offsetMatrix)) <= MAX_TRIANGLES_PER_NODE)%Z ->
  build mesh bbox offsetMatrix =
  mkNode bbox (replicate 8 None) (trianglesOfMesh mesh offsetMatrix).
Proof.
  unfold build, newNode. generalize (trianglesOfMesh mesh offsetMatrix) as ts. intros ts.
  assert (Hgen : forall pre : list (TriangleData D),
    (Z.of_nat (length (pre ++ ts)) <= MAX_TRIANGLES_PER_NODE)%Z ->
    fold_left (fun root triangle => insertTriangle root triangle 0) ts
              (mkNode bbox (replicate 8 None) pre)
    = mkNode bbox (replicate 8 None) (pre ++ ts)).
  { induction ts as [|t ts IH]; intros pre Hlen; cbn [fold_left].
    - now rewrite app_nil_r.
    - rewrite length_app in Hlen. cbn [length] in Hlen.
      rewrite insertTriangle_roomy_leaf by lia.
      rewrite (IH (pre ++ [t])), <- app_assoc; [reflexivity|].
      rewrite !length_app. cbn [length]. lia. }
  intros Hlen. apply (Hgen []). exact Hlen.
Qed.

(** X5. A mesh of at most [MAX_TRIANGLES_PER_NODE] triangles is never
    split: [build] leaves one leaf, the root, holding the triangles in
    the order of the mesh. *)
Theorem build_of_a_small_mesh_is_one_leaf (mesh : list (Polygon D)) (bbox : MBoundingBox D)
    (offsetMatrix : MMatrix D) :
  (Z.of_nat (length (trianglesOfMesh mesh offsetMatrix)) <= MAX_TRIANGLES_PER_NODE)%Z ->
  isLeaf (build mesh bbox offsetMatrix) = true /\
  triangles (build mesh bbox offsetMatrix) = trianglesOfMesh mesh offsetMatrix.
Proof. intros Hsmall. rewrite (build_small mesh bbox offsetMatrix Hsmall). auto. Qed.

(** ** Queries on trees made by [build] *)

(** X6. Two meshes of at most [MAX_TRIANGLES_PER_NODE] triangles each are
    tested exhaustively: when the two boxes given to [build] intersect,
    the query returns every pair of a triangle of the first mesh and a
    triangle of the second that satisfies the predicate, in mesh order;
    when the boxes do not intersect it returns nothing. *)
Theorem small_meshes_are_tested_exhaustively
    (meshA meshB : list (Polygon D)) (bboxA bboxB : MBoundingBox D)
    (matrixA matrixB : MMatrix D) :
  (Z.of_nat (length (trianglesOfMesh meshA matrixA)) <= MAX_TRIANGLES_PER_NODE)%Z ->
  (Z.of_nat (length (trianglesOfMesh meshB matrixB)) <= MAX_TRIANGLES_PER_NODE)%Z ->
  let hits :=
    if intersects bboxA bboxB
    then bruteForce (trianglesOfMesh meshA matrixA) (trianglesOfMesh meshB matrixB)
    else [] in
  intersectKernelKernel (mkKernel (build meshA bboxA matrixA))
                        (Octree (mkKernel (build meshB bboxB matrixB)))
  = ((map fst hits, map snd hits), []).
Proof.
  intros HA HB hits. subst hits.
  rewrite intersectKernelKernel_hits. cbn [root].
  rewrite (build_small meshA bboxA matrixA HA), (build_small meshB bboxB matrixB HB).
  rewrite emitted_unfold. cbn [boundingBox].
  destruct (intersects bboxA bboxB); [|reflexivity].
  change (flat_map pairHits _)
    with (bruteForce (trianglesOfMesh meshA matrixA) (trianglesOfMesh meshB matrixB) ++ []).
  now rewrite app_nil_r.
Qed.

Lemma stored_at_a_node n :
  forall x s, x ∈ nodesOf n -> s ∈ triangles x -> s ∈ storedTriangles n.
Proof.
  induction n as [n IH] using OctreeNode_children_ind.
  intros x s Hx Hs. apply elem_of_storedTriangles.
  destruct n as [bb cs ts]; simpl in Hx.
  apply elem_of_cons in Hx as [->|Hx]; [now left|]. right.
  apply elem_of_flat_map in Hx as ([child|] & Hin & Hx); [|inversion Hx].
  exists child. split; [assumption|]. eapply IH; eauto.
Qed.

(** The triangles of the query come from what the two trees store. *)
Lemma hits_are_stored a b s t :
  (s, t) ∈ flat_map pairHits (emitted a b) ->
  s ∈ storedTriangles a /\ t ∈ storedTriangles b.
Proof.
  intros (x & y & Hxy & Hs & Ht & _)%elem_of_all_hits.
  destruct (emitted_leaf_pairs _ _ _ _ Hxy) as (_ & _ & _ & HxA & HyB).
  split; eapply stored_at_a_node; eauto.
Qed.

Lemma elem_of_trianglesOfMesh (mesh : list (Polygon D)) (offsetMatrix : MMatrix D) s :
  s ∈ trianglesOfMesh mesh offsetMatrix ->
  exists poly, poly ∈ mesh /\ face_id s = index poly /\
               (0 <= triangle_index s < Z.of_nat (length (polygonTriangles poly)))%Z.
Proof.
  unfold trianglesOfMesh.
  intros (poly & Hpoly & Hs)%elem_of_flat_map.
  apply elem_of_lookup_imap in Hs as (i & pts & -> & Hi).
  exists poly. simpl. split; [assumption|]. split; [reflexivity|].
  apply lookup_lt_Some in Hi. lia.
Qed.

(** X7. Whatever the kernel-vs-kernel query returns for trees made by
    [build] is a triangle of the corresponding mesh: its face id is the
    index of a polygon of that mesh and its triangle index is below that
    polygon's triangle count. *)
Theorem reported_triangles_belong_to_the_meshes
    (meshA meshB : list (Polygon D)) (bboxA bboxB : MBoundingBox D)
    (matrixA matrixB : MMatrix D) :
  let r := (intersectKernelKernel (mkKernel (build meshA bboxA matrixA))
                                  (Octree (mkKernel (build meshB bboxB matrixB)))).1 in
  (forall s, s ∈ r.1 ->
     s ∈ trianglesOfMesh meshA matrixA /\
     exists poly, poly ∈ meshA /\ face_id s = index poly /\
       (0 <= triangle_index s < Z.of_nat (length (polygonTriangles poly)))%Z) /\
  (forall s, s ∈ r.2 ->
     s ∈ trianglesOfMesh meshB matrixB /\
     exists poly, poly ∈ meshB /\ face_id s = index poly /\
       (0 <= triangle_index s < Z.of_nat (length (polygonTriangles poly)))%Z).
Proof.
  rewrite intersectKernelKernel_hits. cbn [fst snd root].
  split; intros s Hs.
  - apply elem_of_map_fst in Hs as (u & [Hin _]%hits_are_stored).
    apply storedTriangles_build in Hin.
    split; [assumption | now apply elem_of_trianglesOfMesh in Hin].
  - apply elem_of_map_snd in Hs as (u & [_ Hin]%hits_are_stored).
    apply storedTriangles_build in Hin.
    split; [assumption | now apply elem_of_trianglesOfMesh in Hin].
Qed.


(** ** The size of the traversal's output *)

Lemma leafCount_unfold n :
  leafCount n =
  if isLeaf n then 1
  else list_sum (map (fun c => match c with
                               | Some child => leafCount child
                               | None => 0
                               end) (children n)).
Proof.
  destruct n as [bb cs ts]; simpl. destruct (isLeaf _); [reflexivity|].
  induction cs as [|[c|] cs IH]; simpl; auto.
Qed.

Lemma list_sum_le {A} (f g : A -> nat) (l : list A) :
  (forall x, x ∈ l -> f x <= g x) -> list_sum (map f l) <= list_sum (map g l).
Proof.
  induction l as [|x l IH]; intros Hfg; simpl; [lia|].
  pose proof (Hfg x (list_elem_of_here _ _)).
  assert (list_sum (map f l) <= list_sum (map g l))
    by (apply IH; intros; now apply Hfg, list_elem_of_further).
  lia.
Qed.

Lemma list_sum_scale {A} (g : A -> nat) (k : nat) (l : list A) :
  list_sum (map (fun x => g x * k) l) = list_sum (map g l) * k.
Proof. induction l as [|x l IH]; simpl; [reflexivity|]. rewrite IH. lia. Qed.

(** X9. The dual-tree traversal emits at most one pair per pair of
    leaves: the number of emitted pairs, and so the number of iterations
    of the outer loop of the query, is bounded by the product of the two
    trees' leaf counts. *)
Theorem emitted_pairs_are_bounded_by_the_leaves :
  forall a b, length (emitted a b) <= leafCount a * leafCount b.
Proof.
  apply node_pair_ind. intros a b IHb IHa IHab.
  rewrite emitted_unfold, (leafCount_unfold a), (leafCount_unfold b).
  destruct (negb _); [simpl; lia|].
  destruct (isLeaf a) eqn:HlA; [destruct (isLeaf b) eqn:HlB | destruct (isLeaf b) eqn:HlB];
    cbn [andb].
  - simpl. lia.
  - rewrite length_flat_map, Nat.mul_1_l. apply list_sum_le.
    intros [cB|] HcB; simpl; [|lia].
    specialize (IHb cB HcB). rewrite (leafCount_unfold a), HlA in IHb. lia.
  - rewrite length_flat_map, Nat.mul_1_r. apply list_sum_le.
    intros [cA|] HcA; simpl; [|lia].
    specialize (IHa cA HcA). rewrite (leafCount_unfold b), HlB in IHa. lia.
  - rewrite length_flat_map.
    set (leavesB := list_sum (map (fun c => match c with
                                            | Some child => leafCount child
                                            | None => 0
                                            end) (children b))).
    rewrite <- (list_sum_scale _ leavesB). apply list_sum_le.
    intros cA HcA. rewrite length_flat_map. subst leavesB.
    rewrite Nat.mul_comm, <- list_sum_scale. apply list_sum_le.
    intros cB HcB. destruct cA as [cA|], cB as [cB|]; simpl; try lia.
    specialize (IHab cA cB HcA HcB). lia.
Qed.

(** ** The triangle-vs-kernel query *)

Lemma nodesOf_unfold n :
  nodesOf n = n :: flat_map (fun c => match c with
                                      | Some child => nodesOf child
                                      | None => []
                                      end) (children n).
Proof. destruct n; reflexivity. Qed.

Lemma flat_map_nonNull {B} (f : OctreeNode D -> list B) (cs : list (option (OctreeNode D))) :
  flat_map f (omap (fun c : option (OctreeNode D) => c) cs) =
  flat_map (fun c => match c with Some child => f child | None => [] end) cs.
Proof.
  induction cs as [|[c|] cs IH]; simpl; [reflexivity| |assumption].
  f_equal. exact IH.
Qed.

Lemma nodeCount_cons n (queue : list (OctreeNode D)) :
  nodeCount (n :: queue) = S (nodeCount (queue ++ nonNullChildren n)).
Proof.
  unfold nodeCount, nonNullChildren. rewrite flat_map_app, flat_map_nonNull.
  simpl. rewrite (nodesOf_unfold n). simpl. rewrite !length_app. lia.
Qed.

Lemma nodeCount_tail n (queue : list (OctreeNode D)) :
  nodeCount queue < nodeCount (n :: queue).
Proof.
  rewrite nodeCount_cons. unfold nodeCount. rewrite flat_map_app, length_app. lia.
Qed.

Lemma triangleHits_unfold (incomingTri : TriangleData D) n :
  triangleHits incomingTri n =
  if intersectBoxTriangle (boundingBox n) incomingTri then
    if isLeaf n then
      List.filter (fun ourTri => intersectTriangleTriangle ourTri incomingTri) (triangles n)
    else flat_map (triangleHits incomingTri) (nonNullChildren n)
  else [].
Proof.
  unfold nonNullChildren. rewrite flat_map_nonNull. destruct n; reflexivity.
Qed.

(** With one step per node the loop comes to its end, and what it has
    gathered is what a depth-first walk gathers, in another order. *)
Lemma intersectKernelTriangle_loop_spec (incomingTri : TriangleData D) (steps : nat) :
  forall (queue : list (OctreeNode D)) (acc : list (TriangleData D)),
    nodeCount queue <= steps ->
    exists r,
      intersectKernelTriangle_loop steps queue incomingTri acc = Some r /\
      r ≡ₚ acc ++ flat_map (triangleHits incomingTri) queue.
Proof.
  induction steps as [|steps IH]; intros [|n rest] acc Hsteps.
  - exists acc. simpl. now rewrite app_nil_r.
  - rewrite nodeCount_cons in Hsteps. lia.
  - exists acc. simpl. now rewrite app_nil_r.
  - cbn [intersectKernelTriangle_loop flat_map].
    rewrite (triangleHits_unfold incomingTri n).
    pose proof (nodeCount_tail n rest) as Htail.
    destruct (intersectBoxTriangle (boundingBox n) incomingTri).
    + destruct (isLeaf n).
      * destruct (IH rest (acc ++ List.filter
                             (fun ourTri => intersectTriangleTriangle ourTri incomingTri)
                             (triangles n))) as (r & Hr & Hperm); [lia|].
        exists r. split; [assumption|]. now rewrite Hperm, <- app_assoc.
      * destruct (IH (rest ++ nonNullChildren n) acc) as (r & Hr & Hperm).
        { rewrite nodeCount_cons in Hsteps. lia. }
        exists r. split; [assumption|].
        rewrite Hperm, flat_map_app. apply Permutation_app_head, Permutation_app_comm.
    + destruct (IH rest acc) as (r & Hr & Hperm); [lia|].
      exists r. split; [assumption|]. now rewrite Hperm.
Qed.

Lemma intersectKernelTriangle_loop_mono (incomingTri : TriangleData D) (steps : nat) :
  forall steps' (queue : list (OctreeNode D)) (acc r : list (TriangleData D)),
    steps <= steps' ->
    intersectKernelTriangle_loop steps queue incomingTri acc = Some r ->
    intersectKernelTriangle_loop steps' queue incomingTri acc = Some r.
Proof.
  induction steps as [|steps IH]; intros steps' [|n rest] acc r Hle;
    try (destruct steps'; simpl; auto; fail); try discriminate.
  destruct steps' as [|steps']; [lia|]. simpl.
  destruct (intersectBoxTriangle _ _); [destruct (isLeaf n)|]; apply IH; lia.
Qed.

(** X10. The loop of [intersectKernelTriangle] ends after at most one
    iteration per node of the tree: with that many steps, or more, it
    returns the result; with a null root it returns the empty vector at
    once. *)
Theorem intersectKernelTriangle_terminates
    (root : option (OctreeNode D)) (incomingTri : TriangleData D) (steps : nat) :
  let nodesToCheck := match root with Some r => [r] | None => [] end in
  length (flat_map nodesOf nodesToCheck) <= steps ->
  intersectKernelTriangle_loop steps nodesToCheck incomingTri []
  = Some (intersectKernelTriangle root incomingTri) /\
  (root = None -> intersectKernelTriangle root incomingTri = []).
Proof.
  intros queue Hsteps. split; [|intros ->; reflexivity].
  unfold intersectKernelTriangle. fold queue.
  destruct (intersectKernelTriangle_loop_spec incomingTri (nodeCount queue) queue [])
    as (r & Hr & _); [lia|].
  rewrite Hr. simpl.
  apply (intersectKernelTriangle_loop_mono incomingTri (nodeCount queue)); assumption.
Qed.

Lemma intersectKernelTriangle_perm (r : OctreeNode D) (incomingTri : TriangleData D) :
  intersectKernelTriangle (Some r) incomingTri ≡ₚ triangleHits incomingTri r.
Proof.
  unfold intersectKernelTriangle.
  destruct (intersectKernelTriangle_loop_spec incomingTri (nodeCount [r]) [r] [])
    as (res & -> & Hperm); [lia|].
  simpl in *. now rewrite app_nil_r in Hperm.
Qed.

(** X11. The breadth-first query returns what a depth-first walk of the
    tree gathers (the triangles of the leaves reached through boxes that
    overlap the incoming triangle, filtered by the predicate), only in
    another order. *)
Theorem intersectKernelTriangle_is_a_rearranged_walk
    (r : OctreeNode D) (incomingTri : TriangleData D) :
  intersectKernelTriangle (Some r) incomingTri ≡ₚ triangleHits incomingTri r.
Proof. apply intersectKernelTriangle_perm. Qed.

Lemma elem_of_triangleHits (incomingTri : TriangleData D) :
  forall n s, s ∈ triangleHits incomingTri n ->
    exists x, x ∈ nodesOf n /\ isLeaf x = true /\
              intersectBoxTriangle (boundingBox x) incomingTri = true /\
              s ∈ triangles x /\ intersectTriangleTriangle s incomingTri = true.
Proof.
  induction n as [n IH] using OctreeNode_children_ind. intros s.
  rewrite triangleHits_unfold.
  destruct (intersectBoxTriangle (boundingBox n) incomingTri) eqn:Hbox;
    [|intros Hs; inversion Hs].
  destruct (isLeaf n) eqn:Hleaf.
  - intros [Hs Hit]%list_elem_of_In%filter_In. exists n.
    rewrite <- list_elem_of_In in Hs. auto 10 using nodesOf_self.
  - unfold nonNullChildren. rewrite flat_map_nonNull.
    intros ([child|] & Hin & Hs)%elem_of_flat_map; [|inversion Hs].
    destruct (IH child Hin s Hs) as (x & Hx & Hrest).
    exists x. split; [eapply nodesOf_child; eauto | assumption].
Qed.

(** X12. Every triangle [intersectKernelTriangle] returns is stored at a
    leaf of the tree whose box passes the box-triangle test, and
    satisfies the triangle-triangle predicate with the incoming triangle.
    A triangle held by an interior node is never returned for that
    node. *)
Theorem intersectKernelTriangle_returns_leaf_triangles
    (r : OctreeNode D) (incomingTri : TriangleData D) :
  forall s, s ∈ intersectKernelTriangle (Some r) incomingTri ->
    exists x, x ∈ nodesOf r /\ isLeaf x = true /\
              intersectBoxTriangle (boundingBox x) incomingTri = true /\
              s ∈ triangles x /\ intersectTriangleTriangle s incomingTri = true.
Proof.
  intros s Hs. rewrite intersectKernelTriangle_perm in Hs.
  now apply elem_of_triangleHits.
Qed.

Lemma nonNullChildren_clearInterior n :
  nonNullChildren (clearInterior n) = map clearInterior (nonNullChildren n).
Proof.
  unfold nonNullChildren. rewrite children_clearInterior.
  induction (children n) as [|[c|] cs IH]; simpl; [reflexivity| |assumption].
  f_equal. exact IH.
Qed.

Lemma nodesOf_clearInterior :
  forall n, nodesOf (clearInterior n) = map clearInterior (nodesOf n).
Proof.
  induction n as [n IH] using OctreeNode_children_ind.
  rewrite (nodesOf_unfold (clearInterior n)), (nodesOf_unfold n), children_clearInterior.
  cbn [map]. f_equal.
  assert (Hcs : forall cs : list (option (OctreeNode D)),
    (forall child, Some child ∈ cs -> nodesOf (clearInterior child)
                                      = map clearInterior (nodesOf child)) ->
    flat_map (fun c => match c with Some child => nodesOf child | None => [] end)
             (map (option_map clearInterior) cs)
    = map clearInterior
          (flat_map (fun c => match c with Some child => nodesOf child | None => [] end) cs)).
  { induction cs as [|[c|] cs IHcs]; intros Hall; simpl; [reflexivity|..].
    - rewrite map_app, Hall by apply list_elem_of_here. f_equal.
      apply IHcs. intros child Hin. now apply Hall, list_elem_of_further.
    - apply IHcs. intros child Hin. now apply Hall, list_elem_of_further. }
  apply Hcs, IH.
Qed.

Lemma intersectKernelTriangle_loop_clearInterior (incomingTri : TriangleData D)
    (steps : nat) :
  forall (queue : list (OctreeNode D)) (acc : list (TriangleData D)),
    intersectKernelTriangle_loop steps (map clearInterior queue) incomingTri acc =
    intersectKernelTriangle_loop steps queue incomingTri acc.
Proof.
  induction steps as [|steps IH]; intros [|n rest] acc; simpl; try reflexivity.
  rewrite boundingBox_clearInterior, isLeaf_clearInterior.
  destruct (intersectBoxTriangle _ _); [|apply IH].
  destruct (isLeaf n) eqn:Hleaf.
  - rewrite (clearInterior_leaf n Hleaf). apply IH.
  - rewrite nonNullChildren_clearInterior, <- map_app. apply IH.
Qed.

(** X13. The triangle-vs-kernel query does not look at the triangles of
    interior nodes: it returns the same vector, in the same order, when
    the triangle lists of all interior nodes are emptied. *)
Theorem intersectKernelTriangle_ignores_interior_triangles
    (r : OctreeNode D) (incomingTri : TriangleData D) :
  intersectKernelTriangle (Some (clearInterior r)) incomingTri =
  intersectKernelTriangle (Some r) incomingTri.
Proof.
  unfold intersectKernelTriangle, nodeCount. simpl.
  rewrite !app_nil_r, nodesOf_clearInterior, length_map.
  now rewrite (intersectKernelTriangle_loop_clearInterior incomingTri _ [r]).
Qed.

(** ** clear *)

Lemma clearNode_unfold n :
  clearNode n = flat_map (fun c => match c with
                                   | Some child => clearNode child
                                   | None => []
                                   end) (children n) ++ [n].
Proof. destruct n; reflexivity. Qed.

Lemma clearNode_perm : forall n, clearNode n ≡ₚ nodesOf n.
Proof.
  induction n as [n IH] using OctreeNode_children_ind.
  rewrite clearNode_unfold, nodesOf_unfold.
  rewrite <- Permutation_cons_append. constructor.
  assert (Hcs : forall cs : list (option (OctreeNode D)),
    (forall child, Some child ∈ cs -> clearNode child ≡ₚ nodesOf child) ->
    flat_map (fun c => match c with Some child => clearNode child | None => [] end) cs
    ≡ₚ flat_map (fun c => match c with Some child => nodesOf child | None => [] end) cs).
  { induction cs as [|[c|] cs IHcs]; intros Hall; simpl; [reflexivity|..].
    - rewrite (Hall c) by apply list_elem_of_here. apply Permutation_app_head.
      apply IHcs. intros child Hin. now apply Hall, list_elem_of_further.
    - apply IHcs. intros child Hin. now apply Hall, list_elem_of_further. }
  apply Hcs, IH.
Qed.

(** X14. [clear] hands every node of the tree to [delete] exactly once
    (the deleted nodes are a rearrangement of the nodes of the tree),
    the root last, after all its descendants; a null pointer deletes
    nothing. *)
Theorem clear_deletes_every_node_once (n : OctreeNode D) :
  clear (Some n) ≡ₚ nodesOf n /\
  last (clear (Some n)) = Some n /\
  length (clear (Some n)) = length (nodesOf n) /\
  clear (@None (OctreeNode D)) = [].
Proof.
  simpl. split; [apply clearNode_perm|]. split; [|split; [|reflexivity]].
  - rewrite clearNode_unfold. apply last_snoc.
  - now rewrite clearNode_perm.
Qed.

(** ** Result assembly *)

Lemma fold_right_add_snoc (l : list Z) (x : Z) :
  fold_right Z.add 0%Z (l ++ [x]) = (fold_right Z.add 0 l + x)%Z.
Proof. induction l as [|y l IH]; simpl; [lia|]. rewrite IH. lia. Qed.

(** An [int] operation whose exact result fits is exact. *)
Lemma wrapInt_exact (z : Z) : (- 2 ^ 31 <= z <= INT_MAX)%Z -> wrapInt z = z.
Proof.
  unfold wrapInt, INT_MAX. intros Hz.
  rewrite Z.mod_small by lia. lia.
Qed.

Lemma prefix_sum_bounds (counts : list Z) (k m : nat) :
  m <= k ->
  Forall (fun c => 0 <= c)%Z (take k counts) ->
  Forall (fun c => 0 <= c)%Z (take m counts) /\
  (0 <= fold_right Z.add 0 (take m counts) <= fold_right Z.add 0 (take k counts))%Z.
Proof.
  revert k m. induction counts as [|c counts IH]; intros k m Hmk Hpos.
  - rewrite !take_nil. split; [constructor | simpl; lia].
  - destruct m as [|m]; [|destruct k as [|k]; [lia|]].
    + split; [constructor|]. simpl.
      assert (Hsum : forall l, Forall (fun c => 0 <= c)%Z l ->
                (0 <= fold_right Z.add 0 l)%Z).
      { induction 1; simpl; lia. }
      split; [lia | now apply Hsum].
    + simpl in *. inversion Hpos as [|? ? Hc Hrest]; subst.
      destruct (IH k m ltac:(lia) Hrest) as [Hposm Hsum].
      split; [now constructor | lia].
Qed.

(** The loop that fills the offsets, after [m] iterations: an entry is
    the prefix sum as long as the sum fits an [int]. *)
Lemma polygonTriangleOffsets_loop (counts : list Z) (n m : nat) :
  m < n -> n <= length counts ->
  let offsets :=
    fold_left (fun (offsets : list Z) (polygonIndex : nat) =>
                 let previousTriangles := counts !!! (polygonIndex - 1)%nat in
                 <[ polygonIndex :=
                      wrapInt (offsets !!! (polygonIndex - 1)%nat
                               + wrapInt (previousTriangles * 3)) ]>
                   offsets)
              (seq 1 m) (replicate n 0%Z) in
  length offsets = n /\
  forall k, k <= m ->
    Forall (fun c => 0 <= c)%Z (take k counts) ->
    (3 * fold_right Z.add 0 (take k counts) <= INT_MAX)%Z ->
    offsets !! k = Some (3 * fold_right Z.add 0 (take k counts))%Z.
Proof.
  intros Hm Hn. induction m as [|m IH]; cbv zeta.
  - cbn [seq fold_left]. split; [apply length_replicate|].
    intros k Hk _ _. replace k with 0 by lia.
    rewrite lookup_replicate_2 by lia. reflexivity.
  - rewrite seq_S, fold_left_app. cbn [fold_left].
    destruct IH as [Hlen Hprefix]; [lia|]. cbv zeta in Hlen, Hprefix.
    set (offsets := fold_left _ (seq 1 m) _) in *.
    change (1 + m) with (S m). replace (S m - 1) with m by lia.
    split; [now rewrite length_insert|].
    intros k Hk Hpos Hfit. destruct (decide (k = S m)) as [->|Hne].
    + rewrite list_lookup_insert_eq by lia. f_equal.
      destruct (prefix_sum_bounds counts (S m) m ltac:(lia) Hpos) as [Hposm Hsum].
      destruct (lookup_lt_is_Some_2 counts m ltac:(lia)) as [c Hc].
      rewrite (take_S_r counts m c Hc), fold_right_add_snoc in *.
      assert (Hc0 : (0 <= c)%Z).
      { apply Forall_app in Hpos as [_ Hlast]. now inversion Hlast. }
      rewrite (list_lookup_total_correct offsets m _
                 (Hprefix m ltac:(lia) Hposm ltac:(lia))).
      rewrite (list_lookup_total_correct counts m c Hc).
      unfold INT_MAX in *.
      rewrite (wrapInt_exact (c * 3)) by (unfold INT_MAX; lia).
      rewrite wrapInt_exact by (unfold INT_MAX; lia). lia.
    + rewrite list_lookup_insert_ne by lia. apply Hprefix; [lia | assumption..].
Qed.

(** X15. The offsets [addIntersectedVertices] computes are prefix sums as
    long as they fit an [int]: for a polygon [k] of the mesh such that
    the triangle counts before it are not negative and three times their
    sum is at most [INT_MAX], entry [k] is three times the number of
    triangles of the polygons before it, that is, the position of the
    polygon's first vertex id in [triangleVertices]. *)
Theorem polygonTriangleOffsets_are_prefix_sums (mesh : MFnMesh D) (k : nat) :
  Z.to_nat (numPolygons mesh) <= length (triangleCounts mesh) ->
  k < Z.to_nat (numPolygons mesh) ->
  Forall (fun c => 0 <= c)%Z (take k (triangleCounts mesh)) ->
  (3 * fold_right Z.add 0 (take k (triangleCounts mesh)) <= INT_MAX)%Z ->
  polygonTriangleOffsets mesh !! k =
  Some (3 * fold_right Z.add 0 (take k (triangleCounts mesh)))%Z.
Proof.
  intros Hcounts Hk Hpos Hfit. unfold polygonTriangleOffsets.
  destruct (polygonTriangleOffsets_loop (triangleCounts mesh)
              (Z.to_nat (numPolygons mesh)) (Z.to_nat (numPolygons mesh) - 1))
    as [_ Hprefix]; [lia | assumption |].
  apply Hprefix; [lia | assumption..].
Qed.

Lemma faceDataOf_shape (mesh : MFnMesh D) (offsetMatrix : MMatrix D) (faceId : Z) :
  edges (faceDataOf mesh offsetMatrix faceId) = [] /\
  length (vertices (faceDataOf mesh offsetMatrix faceId)) =
  3 * Z.to_nat (triangleCounts mesh !!! Z.to_nat faceId).
Proof.
  split; [reflexivity|]. unfold faceDataOf. cbn [vertices].
  rewrite (flat_map_constant_length (c := 3)) by reflexivity.
  rewrite length_seqZ. lia.
Qed.

(** X16. Every face [addIntersectedVertices] appends belongs to a face id
    of the set that is in range, has three vertices for each triangle of
    that polygon, and has no edges: the function never fills [edges]. *)
Theorem appended_faces_are_triangle_lists (mesh : MFnMesh D)
    (data : IntersectionMarkerData D) (intersectedFaceIds : gset Z)
    (offsetMatrix : MMatrix D) :
  exists added,
    faces (addIntersectedVertices mesh data intersectedFaceIds offsetMatrix).1
    = faces data ++ added /\
    Forall (fun face =>
              edges face = [] /\
              exists faceId, faceId ∈ intersectedFaceIds /\
                faceIdInRange mesh faceId = true /\
                length (vertices face) =
                3 * Z.to_nat (triangleCounts mesh !!! Z.to_nat faceId)) added.
Proof.
  destruct (addFace_loop mesh offsetMatrix (elements intersectedFaceIds) (data, []))
    as [Hfaces _].
  eexists. split; [exact Hfaces|].
  apply Forall_forall. intros face (faceId & -> & Hin)%list_elem_of_fmap.
  apply list_elem_of_In, filter_In in Hin as [Hin%list_elem_of_In Hrange].
  destruct (faceDataOf_shape mesh offsetMatrix faceId) as [Hedges Hlen].
  split; [assumption|]. exists faceId. rewrite <- elem_of_elements. auto.
Qed.

Lemma filter_all {A} (p : A -> bool) (l : list A) :
  (forall x, x ∈ l -> p x = true) -> List.filter p l = l.
Proof.
  induction l as [|x l IH]; intros Hp; simpl; [reflexivity|].
  rewrite (Hp x (list_elem_of_here _ _)), IH; [reflexivity|].
  intros y Hy. now apply Hp, list_elem_of_further.
Qed.

Lemma filter_none {A} (p : A -> bool) (l : list A) :
  (forall x, x ∈ l -> p x = false) -> List.filter p l = [].
Proof.
  induction l as [|x l IH]; intros Hp; simpl; [reflexivity|].
  rewrite (Hp x (list_elem_of_here _ _)), IH; [reflexivity|].
  intros y Hy. now apply Hp, list_elem_of_further.
Qed.

Lemma addIntersectedVertices_in_range (mesh : MFnMesh D)
    (data : IntersectionMarkerData D) (ids : gset Z) (offsetMatrix : MMatrix D) :
  (forall f, f ∈ ids -> faceIdInRange mesh f = true) ->
  addIntersectedVertices mesh data ids offsetMatrix =
  (mkData (faces data ++ map (faceDataOf mesh offsetMatrix) (elements ids)), []).
Proof.
  intros Hrange.
  destruct (addFace_loop mesh offsetMatrix (elements ids) (data, [])) as [Hfaces Hmsgs].
  cbv zeta in Hfaces, Hmsgs. fold (addIntersectedVertices mesh data ids offsetMatrix) in *.
  destruct (addIntersectedVertices mesh data ids offsetMatrix) as [[fs] msgs].
  simpl in *. subst.
  rewrite filter_all, filter_none; [reflexivity | |];
    intros f Hf%elem_of_elements; rewrite (Hrange f Hf); reflexivity.
Qed.

(** X17. The face ids the query reports for a mesh never trip the bounds
    check of the result assembly: when every polygon index of the mesh
    given to [build] is in [0, numPolygons), a set made of face ids of
    returned triangles is drawn without any diagnostic message, one face
    per id. *)
Theorem reported_face_ids_pass_the_bounds_check
    (meshA meshB : list (Polygon D)) (bboxA bboxB : MBoundingBox D)
    (matrixA matrixB : MMatrix D)
    (mesh : MFnMesh D) (data : IntersectionMarkerData D) (ids : gset Z)
    (offsetMatrix : MMatrix D) :
  let r := (intersectKernelKernel (mkKernel (build meshA bboxA matrixA))
                                  (Octree (mkKernel (build meshB bboxB matrixB)))).1 in
  (forall poly, poly ∈ meshA -> (0 <= index poly < numPolygons mesh)%Z) ->
  (forall f, f ∈ ids -> exists s, s ∈ r.1 /\ face_id s = f) ->
  let out := addIntersectedVertices mesh data ids offsetMatrix in
  out.2 = [] /\ length (faces out.1) = length (faces data) + size ids.
Proof.
  intros r Hindex Hids out. subst out.
  rewrite addIntersectedVertices_in_range.
  - cbn [fst snd faces]. split; [reflexivity|].
    now rewrite length_app, length_map.
  - intros f (s & Hs & <-)%Hids. subst r.
    rewrite intersectKernelKernel_hits in Hs. cbn [fst snd root] in Hs.
    apply elem_of_map_fst in Hs as (u & [Hin _]%hits_are_stored).
    apply storedTriangles_build, elem_of_trianglesOfMesh in Hin
      as (poly & Hpoly & -> & _).
    specialize (Hindex poly Hpoly). unfold faceIdInRange.
    apply andb_true_iff. split; [apply Z.leb_le | apply Z.ltb_lt]; lia.
Qed.

(** ** prepareForDraw *)

(** X18. While the meshes do not change, a draw costs nothing: when the
    two checksums are read, their exclusive or is positive and equals
    [prevChecksum], [prepareForDraw] returns the data of the previous
    draw as it is, keeps [prevChecksum] and displays nothing. *)
Theorem prepareForDraw_reuses_the_data (prevChecksum : Z) (request : DrawRequest D)
    (oldData : option (IntersectionMarkerData D)) (a b : Z) :
  checksumsOf request = Some (a, b) ->
  (Z.lxor a b > 0)%Z ->
  Z.lxor a b = prevChecksum ->
  prepareForDraw prevChecksum request oldData =
  (default (mkData []) oldData, prevChecksum, []).
Proof.
  unfold checksumsOf, prepareForDraw.
  destruct request as [[] [] [node|]]; simpl; try discriminate.
  destruct (getChecksumA node) as [a'|]; simpl; [|discriminate].
  destruct (getChecksumB node) as [b'|]; simpl; [|discriminate].
  intros [= -> ->] Hpos <-.
  destruct (Z.gtb_spec (Z.lxor a b) 0); [|lia].
  now rewrite Z.eqb_refl.
Qed.

(** X19. A draw that cannot get at the node or at one of the checksums
    changes nothing: the data of the previous draw and [prevChecksum]
    come back as they were. *)
Theorem prepareForDraw_gives_up_without_change (prevChecksum : Z)
    (request : DrawRequest D) (oldData : option (IntersectionMarkerData D)) :
  checksumsOf request = None ->
  (prepareForDraw prevChecksum request oldData).1 =
  (default (mkData []) oldData, prevChecksum).
Proof.
  unfold checksumsOf, prepareForDraw.
  destruct request as [[] [] [node|]]; simpl; try reflexivity.
  destruct (getChecksumA node) as [a|]; simpl; [|reflexivity].
  destruct (getChecksumB node) as [b|]; simpl; [discriminate | reflexivity].
Qed.

(** X20. When the data is rebuilt, nothing of the previous draw is kept:
    once the checksum test fails, the result does not depend on the old
    data, and [prevChecksum] becomes the exclusive or of the two
    checksums. *)
Theorem prepareForDraw_rebuilds_from_nothing (prevChecksum : Z)
    (request : DrawRequest D) (oldData oldData' : option (IntersectionMarkerData D))
    (a b : Z) :
  checksumsOf request = Some (a, b) ->
  ((Z.lxor a b <= 0)%Z \/ Z.lxor a b <> prevChecksum) ->
  prepareForDraw prevChecksum request oldData =
  prepareForDraw prevChecksum request oldData' /\
  (prepareForDraw prevChecksum request oldData).1.2 = Z.lxor a b.
Proof.
  unfold checksumsOf, prepareForDraw.
  destruct request as [[] [] [node|]]; simpl; try discriminate.
  destruct (getChecksumA node) as [a'|]; simpl; [|discriminate].
  destruct (getChecksumB node) as [b'|]; simpl; [|discriminate].
  intros [= -> ->] Hmiss.
  assert (Htest : (Z.lxor a b >? 0)%Z && (Z.lxor a b =? prevChecksum)%Z = false).
  { destruct (Z.gtb_spec (Z.lxor a b) 0), (Z.eqb_spec (Z.lxor a b) prevChecksum);
      simpl; auto; lia. }
  rewrite Htest.
  destruct (if (smoothModeA node =? 0)%Z then meshA node else smoothMeshA node);
    [|auto].
  destruct (if (smoothModeB node =? 0)%Z then meshB node else smoothMeshB node); auto.
Qed.

(** X21. An exclusive or of the checksums that is not positive is never
    taken for unchanged meshes: the draw rebuilds the data whatever
    [prevChecksum] holds (so it is with two equal checksums, whose
    exclusive or is 0). *)
Theorem prepareForDraw_never_reuses_at_nonpositive_checksum
    (prevChecksum prevChecksum' : Z) (request : DrawRequest D)
    (oldData : option (IntersectionMarkerData D)) (a b : Z) :
  checksumsOf request = Some (a, b) ->
  (Z.lxor a b <= 0)%Z ->
  prepareForDraw prevChecksum request oldData =
  prepareForDraw prevChecksum' request oldData.
Proof.
  unfold checksumsOf, prepareForDraw.
  destruct request as [[] [] [node|]]; simpl; try discriminate.
  destruct (getChecksumA node) as [a'|]; simpl; [|discriminate].
  destruct (getChecksumB node) as [b'|]; simpl; [|discriminate].
  intros [= -> ->] Hle.
  destruct (Z.gtb_spec (Z.lxor a b) 0); [lia|]. reflexivity.
Qed.

(** X22. A rebuild that fails to get mesh A leaves an empty marker behind
    under the new checksum: the failed draw returns no faces and has
    already stored the new checksum, so the next draw with the same
    (positive) checksums returns the empty data again, even when the
    mesh can be read by then. *)
Theorem prepareForDraw_failed_rebuild_is_reused
    (prevChecksum : Z) (request request' : DrawRequest D)
    (oldData : option (IntersectionMarkerData D)) (node : IntersectionMarkerNode D)
    (a b : Z) :
  checksumsOf request = Some (a, b) ->
  checksumsOf request' = Some (a, b) ->
  userNode request = Some node ->
  (if (smoothModeA node =? 0)%Z then meshA node else smoothMeshA node) = None ->
  (Z.lxor a b > 0)%Z ->
  Z.lxor a b <> prevChecksum ->
  let first := prepareForDraw prevChecksum request oldData in
  first = (mkData [], Z.lxor a b, [displayInfo "prepareForDraw: meshAFn is null"]) /\
  prepareForDraw first.1.2 request' (Some first.1.1) = (mkData [], Z.lxor a b, []).
Proof.
  intros Hreq Hreq' Hnode HmeshA Hpos Hnew first.
  assert (Hfirst : first =
    (mkData [], Z.lxor a b, [displayInfo "prepareForDraw: meshAFn is null"])).
  { subst first. revert Hreq Hnode. unfold checksumsOf, prepareForDraw.
    destruct request as [[] [] [node0|]]; simpl; try discriminate.
    destruct (getChecksumA node0) as [a'|] eqn:HA; simpl; [|discriminate].
    destruct (getChecksumB node0) as [b'|] eqn:HB; simpl; [|discriminate].
    intros [= -> ->] [= ->].
    assert (Htest : (Z.lxor a b >? 0)%Z && (Z.lxor a b =? prevChecksum)%Z = false).
    { destruct (Z.gtb_spec (Z.lxor a b) 0), (Z.eqb_spec (Z.lxor a b) prevChecksum);
        simpl; auto; lia. }
    now rewrite Htest, HmeshA. }
  split; [assumption|]. rewrite Hfirst. cbn [fst snd].
  revert Hreq'. unfold checksumsOf, prepareForDraw.
  destruct request' as [[] [] [node'|]]; simpl; try discriminate.
  destruct (getChecksumA node') as [a'|]; simpl; [|discriminate].
  destruct (getChecksumB node') as [b'|]; simpl; [|discriminate].
  intros [= -> ->].
  destruct (Z.gtb_spec (Z.lxor a b) 0); [|lia].
  now rewrite Z.eqb_refl.
Qed.

(** X23. Drawing twice in a row with the same request gives the same
    marker: the second draw returns the data and the checksum the first
    one left. *)
Theorem prepareForDraw_twice_is_once (prevChecksum : Z) (request : DrawRequest D)
    (oldData : option (IntersectionMarkerData D)) :
  let first := prepareForDraw prevChecksum request oldData in
  (prepareForDraw first.1.2 request (Some first.1.1)).1 = first.1.
Proof.
  unfold prepareForDraw.
  destruct request as [[] [] [node|]]; simpl; try reflexivity.
  destruct (getChecksumA node) as [a|]; simpl; [|reflexivity].
  destruct (getChecksumB node) as [b|]; simpl; [|reflexivity].
  destruct ((Z.lxor a b >? 0)%Z && (Z.lxor a b =? prevChecksum)%Z) eqn:Htest; simpl.
  { now rewrite Htest. }
  destruct (if (smoothModeA node =? 0)%Z then meshA node else smoothMeshA node)
    as [meshAFn|]; simpl.
  - destruct (if (smoothModeB node =? 0)%Z then meshB node else smoothMeshB node)
      as [meshBFn|]; simpl.
    + rewrite Z.eqb_refl. destruct (Z.lxor a b >? 0)%Z; reflexivity.
    + rewrite Z.eqb_refl. destruct (Z.lxor a b >? 0)%Z; reflexivity.
  - rewrite Z.eqb_refl. destruct (Z.lxor a b >? 0)%Z; reflexivity.
Qed.

End Further.








(** * The properties on the sample data *)

Import Lattice.

(** Triangle 99 of [kernelA] lies at the interior root and overlaps the
    triangle of [kernelB], yet the query reports nothing. *)
Example interior_triangle_is_not_reported :
  isLeaf (root kernelA) = false /\
  triangles (root kernelA) = [outside 99] /\
  intersectTriangleTriangle (outside 99) (outside 7) = true /\
  intersectKernelKernel kernelA (Octree kernelB) = (([], []), []).
Proof. vm_compute. auto. Qed.

Lemma kernel_query_visits_leaf_pairs_only_witness :
  ((root kernelW, root kernelS) ∉ emitted (root kernelW) (root kernelS)) /\
  intersectKernelKernel (mkKernel (clearInterior (root kernelA)))
                        (Octree (mkKernel (clearInterior (root kernelB))))
  = intersectKernelKernel kernelA (Octree kernelB).
Proof.
  destruct (kernel_query_visits_leaf_pairs_only kernelW kernelS) as (Hleaves & _ & _).
  destruct (kernel_query_visits_leaf_pairs_only kernelA kernelB) as (_ & _ & Hsame).
  split; [|exact Hsame].
  assert (Hinterior : isLeaf (root kernelW) = false) by (vm_compute; reflexivity).
  intros Hin. destruct (Hleaves _ _ Hin) as (Hleaf & _).
  rewrite Hinterior in Hleaf. discriminate Hleaf.
Defined.

Lemma insertTriangle_steps_witness :
  insertTriangle roomyLeaf (small 5) 40 =
    mkNode cube64 (replicate 8 None) [small 0; wide 1; small 5] /\
  insertTriangle roomyLeaf (small 5) 0 =
    mkNode cube64 (replicate 8 None) [small 0; wide 1; small 5] /\
  (isLeaf (splitNode fullLeaf) = false /\
   insertTriangle fullLeaf (small 10) 0 = insertTriangle (splitNode fullLeaf) (small 10) 1) /\
  triangles (insertTriangle interior (outside 11) 1) = [outside 11].
Proof.
  destruct (insertTriangle_steps roomyLeaf (small 5) 40) as (Hbeyond & _).
  destruct (insertTriangle_steps roomyLeaf (small 5) 0) as (_ & Hroom & _).
  destruct (insertTriangle_steps fullLeaf (small 10) 0) as (_ & _ & Hfull & _).
  destruct (insertTriangle_steps interior (outside 11) 1) as (_ & _ & _ & Hinterior).
  split; [|split; [|split]].
  - apply Hbeyond. reflexivity.
  - apply Hroom; [discriminate | reflexivity | reflexivity].
  - apply Hfull; [discriminate | reflexivity | discriminate].
  - rewrite Hinterior; [reflexivity | discriminate | reflexivity].
Defined.

Lemma splitNode_moves_each_triangle_to_one_child_witness :
  let k := targetChild (octants cube64) (outside 2) in
  children (splitNode mixedLeaf) !! 0 =
    Some (Some (mkNode (mkBox (pt 0 0 0) (pt 32 32 32)) (replicate 8 None)
                       [small 0; wide 1])) /\
  children (splitNode mixedLeaf) !! 6 =
    Some (Some (mkNode (mkBox (pt 32 32 32) (pt 64 64 64)) (replicate 8 None)
                       [outside 2])) /\
  k = 6 /\
  (forall j, j < 8 ->
     (distanceTo (octants cube64) (outside 2) j <? distanceTo (octants cube64) (outside 2) k)%Z
     = false) /\
  (forall j, j < k ->
     distanceTo (octants cube64) (outside 2) j <> distanceTo (octants cube64) (outside 2) k).
Proof.
  intros k.
  destruct (splitNode_moves_each_triangle_to_one_child mixedLeaf)
    as (_ & _ & Hchild & Htarget).
  split; [apply (Hchild 0); lia|]. split; [apply (Hchild 6); lia|].
  assert (Hk : k = 6) by (vm_compute; reflexivity).
  split; [exact Hk|].
  destruct (Htarget (outside 2)) as (_ & [[Hall _] | (_ & _ & Hlaws)]).
  - assert (Hnot : boxContainsAllVertices (octants cube64 !!! k) (outside 2) = false)
      by (vm_compute; reflexivity).
    exfalso. apply (eq_true_false_abs _ Hall Hnot).
  - apply Hlaws.
    + intros i _. apply Z.ltb_irrefl.
    + intros i j l _ _ _ Hij%Z.ltb_lt Hjl%Z.ltb_lt. apply Z.ltb_lt. lia.
Defined.

(** The vectors of the query repeat face ids; the sets do not. *)
Example result_vectors_repeat_face_ids :
  let r := (intersectKernelKernel kernelW (Octree kernelS)).1 in
  length r.1 = 30 /\
  length (List.filter (Z.eqb 20) (map face_id r.1)) = 10 /\
  length (elements (intersect kernelW (Octree kernelS)).1) = 12.
Proof. vm_compute. auto. Qed.





Lemma disjoint_roots_give_empty_result_witness :
  overlapOn px (boundingBox (root kernelA)) (boundingBox (root kernelFar)) = false /\
  intersectKernelKernel kernelA (Octree kernelFar) = (([], []), []).
Proof.
  assert (Hx : overlapOn px (boundingBox (root kernelA)) (boundingBox (root kernelFar))
               = false) by reflexivity.
  split; [exact Hx|].
  apply (disjoint_roots_give_empty_result kernelA kernelFar). left. exact Hx.
Defined.

Lemma incompatible_kernel_gives_empty_pair_witness :
  dynamic_cast (OtherKernel "AnotherKernel" : SpatialDivisionKernel Z) = None /\
  intersectKernelKernel kernelA (OtherKernel "AnotherKernel") =
  (([], []), [displayError "Cannot intersect octree with other kernel type!"]).
Proof.
  split; [reflexivity|].
  apply (incompatible_kernel_gives_empty_pair kernelA). reflexivity.
Defined.

Example face_ids_out_of_range :
  addIntersectedVertices twoFaces (mkData []) {[ (-1)%Z; 0%Z; 5%Z; 1%Z ]} (fun p => p) =
  (mkData [faceDataOf twoFaces (fun p => p) 1; faceDataOf twoFaces (fun p => p) 0],
   [displayInfo "Face ID out of bounds: -1"; displayInfo "Face ID out of bounds: 5"]).
Proof. vm_compute. reflexivity. Qed.

(** Thirty-three frames are not enough for the cluster, thirty-four are:
    the call at depth 0 and one activation at each depth up to
    [MAX_DEPTH + 1]. *)
Example cluster_needs_all_frames :
  insertTriangle_frames 33 clusterLeaf (speck 10) 0 = OutOfFrames /\
  activations_of (insertTriangle_frames 34 clusterLeaf (speck 10) 0) = seqZ 0 34.
Proof. vm_compute. auto. Qed.

Lemma insertTriangle_terminates_witness :
  Z.to_nat (MAX_DEPTH + 1 - 0) < 34 /\
  (exists log,
     insertTriangle_frames 34 clusterLeaf (speck 10) 0 =
       Done (insertTriangle clusterLeaf (speck 10) 0) log /\
     recordOfCallAt 0 log) /\
  (exists log,
     insertTriangle_frames (S (Z.to_nat (MAX_DEPTH + 1))) roomyLeaf (small 5) 7 =
       Done (insertTriangle roomyLeaf (small 5) 7) log).
Proof.
  assert (Hframes : Z.to_nat (MAX_DEPTH + 1 - 0) < 34) by (vm_compute; lia).
  split; [exact Hframes|]. split.
  - apply (proj1 (insertTriangle_terminates clusterLeaf (speck 10) 0) 34 Hframes).
  - apply (proj2 (insertTriangle_terminates roomyLeaf (small 5) 7)). discriminate.
Defined.

Lemma result_vectors_are_paired_witness :
  let r := (intersectKernelKernel kernelB (Octree kernelFar)).1 in
  length r.1 = length r.2 /\
  r.1 !! 0 = Some (outside 7) /\ r.2 !! 0 = Some (outside 3) /\
  intersectTriangleTriangle (outside 7) (outside 3) = true.
Proof.
  destruct (result_vectors_are_paired kernelB kernelFar) as [Hlen Hhit].
  split; [exact Hlen|]. split; [reflexivity|]. split; [reflexivity|].
  apply (Hhit 0 (outside 7) (outside 3)); reflexivity.
Defined.

(** ** The further properties on the sample data *)

Lemma build_of_a_small_mesh_is_one_leaf_witness :
  (Z.of_nat (length (trianglesOfMesh pairMesh (fun p => p))) <= MAX_TRIANGLES_PER_NODE)%Z /\
  isLeaf (build pairMesh cube64 (fun p => p)) = true /\
  triangles (build pairMesh cube64 (fun p => p)) = [small 0; wide 1].
Proof.
  assert (Hsmall : (Z.of_nat (length (trianglesOfMesh pairMesh (fun p : MPoint Z => p)))
                    <= MAX_TRIANGLES_PER_NODE)%Z) by (vm_compute; discriminate).
  split; [exact Hsmall|].
  exact (build_of_a_small_mesh_is_one_leaf pairMesh cube64 (fun p => p) Hsmall).
Defined.

Lemma small_meshes_are_tested_exhaustively_witness :
  (Z.of_nat (length (trianglesOfMesh pairMesh (fun p => p))) <= MAX_TRIANGLES_PER_NODE)%Z /\
  (Z.of_nat (length (trianglesOfMesh cornerMesh (fun p => p))) <= MAX_TRIANGLES_PER_NODE)%Z /\
  intersectKernelKernel (mkKernel (build pairMesh cube64 (fun p => p)))
                        (Octree (mkKernel (build cornerMesh cube128 (fun p => p))))
  = (([small 0; wide 1], [small 0; small 0]), []).
Proof.
  assert (HsmallA : (Z.of_nat (length (trianglesOfMesh pairMesh (fun p : MPoint Z => p)))
                     <= MAX_TRIANGLES_PER_NODE)%Z) by (vm_compute; discriminate).
  assert (HsmallB : (Z.of_nat (length (trianglesOfMesh cornerMesh (fun p : MPoint Z => p)))
                     <= MAX_TRIANGLES_PER_NODE)%Z) by (vm_compute; discriminate).
  split; [exact HsmallA|]. split; [exact HsmallB|].
  exact (small_meshes_are_tested_exhaustively pairMesh cornerMesh cube64 cube128
           (fun p => p) (fun p => p) HsmallA HsmallB).
Defined.


Lemma intersectKernelTriangle_terminates_witness :
  length (flat_map nodesOf [root kernelA]) <= 57 /\
  intersectKernelTriangle_loop 57 [root kernelA] (small 50) []
  = Some (intersectKernelTriangle (Some (root kernelA)) (small 50)).
Proof.
  assert (Hsteps : length (flat_map nodesOf [root kernelA]) <= 57) by (vm_compute; lia).
  split; [exact Hsteps|].
  exact (proj1 (intersectKernelTriangle_terminates (Some (root kernelA)) (small 50) 57
                  Hsteps)).
Defined.

Lemma intersectKernelTriangle_returns_leaf_triangles_witness :
  small 30 ∈ intersectKernelTriangle (Some (root kernelS)) (small 50) /\
  exists x, x ∈ nodesOf (root kernelS) /\ isLeaf x = true /\
            intersectBoxTriangle (boundingBox x) (small 50) = true /\
            small 30 ∈ triangles x /\ intersectTriangleTriangle (small 30) (small 50) = true.
Proof.
  assert (Hin : small 30 ∈ intersectKernelTriangle (Some (root kernelS)) (small 50))
    by (vm_compute; apply list_elem_of_here).
  split; [exact Hin|].
  exact (intersectKernelTriangle_returns_leaf_triangles (root kernelS) (small 50)
           (small 30) Hin).
Defined.

Lemma polygonTriangleOffsets_are_prefix_sums_witness :
  Z.to_nat (numPolygons twoFaces) <= length (triangleCounts twoFaces) /\
  1 < Z.to_nat (numPolygons twoFaces) /\
  polygonTriangleOffsets twoFaces !! 1 = Some 3%Z.
Proof.
  assert (Hcounts : Z.to_nat (numPolygons twoFaces) <= length (triangleCounts twoFaces))
    by (vm_compute; lia).
  assert (Hk : 1 < Z.to_nat (numPolygons twoFaces)) by (vm_compute; lia).
  assert (Hpos : Forall (fun c => 0 <= c)%Z (take 1 (triangleCounts twoFaces)))
    by (repeat constructor; lia).
  assert (Hfit : (3 * fold_right Z.add 0 (take 1 (triangleCounts twoFaces)) <= INT_MAX)%Z)
    by (vm_compute; discriminate).
  split; [exact Hcounts|]. split; [exact Hk|].
  exact (polygonTriangleOffsets_are_prefix_sums twoFaces 1 Hcounts Hk Hpos Hfit).
Defined.

Lemma reported_face_ids_pass_the_bounds_check_witness :
  let out := addIntersectedVertices twoFaces staleData {[ 0%Z; 1%Z ]} (fun p => p) in
  (forall poly, poly ∈ pairMesh -> (0 <= index poly < numPolygons twoFaces)%Z) /\
  out.2 = [] /\ length (faces out.1) = 1 + size ({[ 0%Z; 1%Z ]} : gset Z).
Proof.
  assert (Hmesh : forall poly, poly ∈ pairMesh ->
                               (0 <= index poly < numPolygons twoFaces)%Z).
  { apply Forall_forall. repeat constructor; simpl; lia. }
  assert (Hids : forall f, f ∈ ({[ 0%Z; 1%Z ]} : gset Z) ->
    exists s, s ∈ (intersectKernelKernel
                     (mkKernel (build pairMesh cube64 (fun p => p)))
                     (Octree (mkKernel (build cornerMesh cube128 (fun p => p))))).1.1 /\
              face_id s = f).
  { intros f [->%elem_of_singleton | ->%elem_of_singleton]%elem_of_union.
    - exists (small 0). split; [vm_compute; apply list_elem_of_here | reflexivity].
    - exists (wide 1). split; [|reflexivity].
      vm_compute. apply list_elem_of_further, list_elem_of_here. }
  split; [exact Hmesh|].
  exact (reported_face_ids_pass_the_bounds_check pairMesh cornerMesh cube64 cube128
           (fun p => p) (fun p => p) twoFaces staleData {[ 0%Z; 1%Z ]} (fun p => p)
           Hmesh Hids).
Defined.

Lemma prepareForDraw_reuses_the_data_witness :
  checksumsOf (requestFor (markerNode 5 3 (Some twoFaces))) = Some (5, 3)%Z /\
  prepareForDraw 6 (requestFor (markerNode 5 3 (Some twoFaces))) (Some staleData)
  = (staleData, 6%Z, []).
Proof.
  assert (Hsums : checksumsOf (requestFor (markerNode 5 3 (Some twoFaces)))
                  = Some (5, 3)%Z) by reflexivity.
  split; [exact Hsums|].
  apply (prepareForDraw_reuses_the_data 6 (requestFor (markerNode 5 3 (Some twoFaces)))
           (Some staleData) 5 3 Hsums); reflexivity.
Defined.

Lemma prepareForDraw_gives_up_without_change_witness :
  checksumsOf (mkRequest true false (Some (markerNode 5 3 (Some twoFaces)))) = None /\
  (prepareForDraw 6 (mkRequest true false (Some (markerNode 5 3 (Some twoFaces))))
                  (Some staleData)).1
  = (staleData, 6%Z).
Proof.
  assert (Hnone : checksumsOf (mkRequest true false (Some (markerNode 5 3 (Some twoFaces))))
                  = None) by reflexivity.
  split; [exact Hnone|].
  exact (prepareForDraw_gives_up_without_change 6 _ (Some staleData) Hnone).
Defined.

Lemma prepareForDraw_rebuilds_from_nothing_witness :
  prepareForDraw 0 (requestFor (markerNode 5 3 (Some twoFaces))) (Some staleData) =
  prepareForDraw 0 (requestFor (markerNode 5 3 (Some twoFaces))) None /\
  (prepareForDraw 0 (requestFor (markerNode 5 3 (Some twoFaces))) (Some staleData)).1.2
  = Z.lxor 5 3.
Proof.
  apply (prepareForDraw_rebuilds_from_nothing 0 (requestFor (markerNode 5 3 (Some twoFaces)))
           (Some staleData) None 5 3).
  - reflexivity.
  - right. discriminate.
Defined.

Lemma prepareForDraw_never_reuses_at_nonpositive_checksum_witness :
  (Z.lxor 7 7 <= 0)%Z /\
  prepareForDraw 0 (requestFor (markerNode 7 7 (Some twoFaces))) (Some staleData) =
  prepareForDraw 9 (requestFor (markerNode 7 7 (Some twoFaces))) (Some staleData).
Proof.
  assert (Hzero : (Z.lxor 7 7 <= 0)%Z) by (vm_compute; discriminate).
  split; [exact Hzero|].
  apply (prepareForDraw_never_reuses_at_nonpositive_checksum 0 9
           (requestFor (markerNode 7 7 (Some twoFaces))) (Some staleData) 7 7);
    [reflexivity | exact Hzero].
Defined.

Lemma prepareForDraw_failed_rebuild_is_reused_witness :
  let first := prepareForDraw 0 (requestFor (markerNode 5 3 None)) (Some staleData) in
  first = (mkData [], 6%Z, [displayInfo "prepareForDraw: meshAFn is null"]) /\
  prepareForDraw first.1.2 (requestFor (markerNode 5 3 (Some twoFaces))) (Some first.1.1)
  = (mkData [], 6%Z, []).
Proof.
  apply (prepareForDraw_failed_rebuild_is_reused 0 (requestFor (markerNode 5 3 None))
           (requestFor (markerNode 5 3 (Some twoFaces))) (Some staleData)
           (markerNode 5 3 None) 5 3);
    [reflexivity | reflexivity | reflexivity | reflexivity | reflexivity | discriminate].
Defined.
